(** * RedisCacher

    A shallow embedding of [src/cachers/redis.js]: the cache facade
    ([init], [get], [set], [del], [getWithTTL], [lock], [tryLock]) as
    functions in a small exception-and-trace monad, and the scan-and-delete
    engine ([_nodeScanDel], [_clusterScanDel], [_scanDel],
    [_sequentialPromises], [clean]) as event handlers over explicit promise
    states. *)

From Stdlib Require Import ZArith Lia Ascii.
From stdpp Require Import base list strings pretty.

(** ** JavaScript values *)

#[warnings="-register-all"]
Inductive value :=
| VUndefined
| VNull
| VBool (b : bool)
| VNum (n : Z)
| VStr (s : string)
| VArr (items : list value)
| VObj (fields : list (string * value)).

(** [if (v)] *)
Definition truthy (v : value) : bool :=
  match v with
  | VUndefined | VNull => false
  | VBool b => b
  | VNum n => negb (n =? 0)%Z
  | VStr s => negb (String.eqb s "")
  | VArr _ | VObj _ => true
  end.

(** [v == null] *)
Definition nullish (v : value) : bool :=
  match v with
  | VUndefined | VNull => true
  | _ => false
  end.

(** A parameter with a default value, [f(x = d)]: the default is taken
    only when the argument is [undefined]. *)
Definition or_default (v d : value) : value :=
  match v with
  | VUndefined => d
  | _ => v
  end.

(** The value a reply of GET denotes: a string, or [null]. *)
Definition raw (data : option string) : value :=
  match data with
  | Some s => VStr s
  | None => VNull
  end.

(** Error objects; [e_pattern] is the [pattern] property that the scan
    engine attaches ([None] when the property is undefined). *)
Record err := Err {
  e_name : string;
  e_message : string;
  e_pattern : option string
}.

(** ** Promises *)

Inductive promise (A : Type) :=
| Pending
| Fulfilled (a : A)
| Rejected (e : err).
Arguments Pending {A}.
Arguments Fulfilled {A} a.
Arguments Rejected {A} e.

(** [resolve(v)] and [reject(e)] of a promise executor: a promise settles
    once, later calls are ignored. *)
Definition resolve {A} (p : promise A) (a : A) : promise A :=
  match p with
  | Pending => Fulfilled a
  | _ => p
  end.

Definition reject {A} (p : promise A) (e : err) : promise A :=
  match p with
  | Pending => Rejected e
  | _ => p
  end.

Definition is_fulfilled {A} (p : promise A) : bool :=
  match p with
  | Fulfilled _ => true
  | _ => false
  end.

Definition is_rejected {A} (p : promise A) : bool :=
  match p with
  | Rejected _ => true
  | _ => false
  end.

(** ** Configuration, clients and effects *)

Inductive level := Debug | Info | Warn | Error.

Inductive command :=
| GET (key : string)
| TTL (key : string)
| SET (key : string) (data : value)
| SETEX (key : string) (ttl : value) (data : value)
| DEL (keys : list string)
| QUIT.

(** The ioredis client held in [this.client]. *)
Inductive client :=
| Redis (cfg : value)
| RedisCluster (startup : value) (options : value).

(** [this.client instanceof Redis.Cluster] *)
Definition instanceof_Cluster (c : client) : bool :=
  match c with
  | RedisCluster _ _ => true
  | Redis _ => false
  end.

(** A connection that can scan and delete: the standalone client itself, or
    one member of a cluster's pool. *)
Inductive node :=
| Standalone (c : client)
| Member (addr : string).

Record redlock_settings := {
  retryCount : option nat;
  retryDelay : option nat
}.

(** A Redlock instance: [new Redlock(clients, settings)]. *)
Record redlock := Redlock {
  rl_clients : list client;
  rl_settings : redlock_settings
}.

Record cluster_opts := {
  nodes : value;
  options : value
}.

(** [opts.redlock]: the [clients] property and the rest of the object,
    which is what [_.omit(opts.redlock, ['clients'])] keeps. *)
Record redlock_opts := {
  clients : option (list client);
  rest : redlock_settings
}.

Record opts := {
  o_ttl : value;
  o_redis : value;
  o_cluster : option cluster_opts;
  o_redlock : option redlock_opts;
  o_monitor : bool
}.

Record lock_handle := {
  lk_owner : redlock;
  lk_resource : string;
  lk_ttl : value
}.

Inductive effect :=
| Log (l : level) (msg : string)
| LogError (msg : string) (e : err)
| Fatal (msg : string)
| NewRedis (cfg : value)
| NewCluster (startup : value) (options : value)
| NewRedlock (r : redlock)
| Listen (event : string)
| Monitor
| Call (c : command)
| Exec (cs : list command)
| Acquire (r : redlock) (resource : string) (ttl : value)
| Unlock (l : lock_handle)
| ScanStream (n : node) (pattern : string) (count : nat)
| Pause (n : node)
| Resume (n : node)
| NodeDel (n : node) (keys : list string)
| ConsoleError (msg : string)
| ConsoleLog (msg : string).

(** ** The monad of the facade: a result or an exception, and the effects
    performed so far in program order. *)

Inductive outcome (A : Type) :=
| Return (a : A)
| Throw (e : err)
| Exit.
Arguments Return {A} a.
Arguments Throw {A} e.
Arguments Exit {A}.

Definition M (A : Type) : Type := outcome A * list effect.

#[export] Instance M_ret : MRet M := fun A a => (Return a, []).

#[export] Instance M_bind : MBind M := fun A B f m =>
  match m with
  | (Return a, t) => let '(r, t') := f a in (r, t ++ t')
  | (Throw e, t) => (Throw e, t)
  | (Exit, t) => (Exit, t)
  end.

Definition perform (e : effect) : M unit := (Return tt, [e]).
Definition throw {A} (e : err) : M A := (Throw e, []).
Definition exit {A} : M A := (Exit, []).

Definition result {A} (m : M A) : outcome A := fst m.
Definition trace {A} (m : M A) : list effect := snd m.

(** [p.then(cb)] on a reply that has arrived: the callback runs on a
    fulfilled promise and its returned promise is adopted; an exception in
    the callback, or a rejected [p], rejects the result. *)
Definition then_ {A B} (p : promise A) (cb : A → M (promise B)) : M (promise B) :=
  match p with
  | Fulfilled a =>
      match cb a with
      | (Return q, t) => (Return q, t)
      | (Throw e, t) => (Return (Rejected e), t)
      | (Exit, t) => (Exit, t)
      end
  | Rejected e => mret (Rejected e)
  | Pending => mret Pending
  end.

(** [p.catch(cb)] *)
Definition catch_ {A} (p : promise A) (cb : err → M (promise A)) : M (promise A) :=
  match p with
  | Rejected e =>
      match cb e with
      | (Return q, t) => (Return q, t)
      | (Throw e', t) => (Return (Rejected e'), t)
      | (Exit, t) => (Exit, t)
      end
  | _ => mret p
  end.

(** [arr.toString()] as used by a template literal on an array of strings. *)
Fixpoint join (sep : string) (l : list string) : string :=
  match l with
  | [] => ""
  | [s] => s
  | s :: l' => s +:+ sep +:+ join sep l'
  end.

(** [`${v}`] for the optional [pattern] property of an error. *)
Definition show_pattern (p : option string) : string :=
  match p with
  | Some s => s
  | None => "undefined"
  end.

(** ** The cache facade *)

(** The cacher object after [init]: [prefix] is set by the base class from
    the broker's namespace, the two Redlock instances exist only when the
    redlock package is installed. *)
Record cacher := {
  prefix : string;
  options_ : opts;
  client_ : client;
  redlock_ : option redlock;
  redlockNonBlocking : option redlock
}.

(** Which optional packages [require] finds. *)
Record packages := {
  has_ioredis : bool;
  has_redlock : bool
}.

Definition BrokerOptionsError (msg : string) : err :=
  Err "BrokerOptionsError" msg None.

Definition TypeError (msg : string) : err :=
  Err "TypeError" msg None.

(** [new Redlock(clients, settings)]. The constructor belongs to the
    redlock package; it refuses an empty list of clients with an Error. *)
Definition new_Redlock (cs : list client) (s : redlock_settings) : M redlock :=
  match cs with
  | [] =>
      throw (Err "Error"
                 "Redlock must be instantiated with at least one redis server."
                 None)
  | _ :: _ =>
      let r := Redlock cs s in
      perform (NewRedlock r);; mret r
  end.

(** [init(broker)], after [super.init(broker)] has set [this.prefix]. *)
Definition init (pkgs : packages) (pfx : string) (o : opts) : M cacher :=
  (if has_ioredis pkgs then mret tt
   else perform (Fatal "The 'ioredis' package is missing. Please install it with 'npm install ioredis --save' command.");; exit);;
  c ← match o_cluster o with
      | Some cl =>
          (if negb (truthy (nodes cl))
           then throw (BrokerOptionsError "No connection details defined for cluster")
           else mret tt);;
          perform (Log Info "Setting Redis.Cluster Cacher");;
          perform (NewCluster (nodes cl) (options cl));;
          mret (RedisCluster (nodes cl) (options cl))
      | None =>
          perform (Log Info "Setting Redis Cacher");;
          perform (NewRedis (o_redis o));;
          mret (Redis (o_redis o))
      end;
  perform (Listen "connect");;
  perform (Listen "error");;
  (if has_redlock pkgs then mret tt
   else perform (Log Warn "The 'redlock' package is missing. If you want to enable cache lock, please install it with 'npm install redlock --save' command."));;
  locks ← (if has_redlock pkgs then
             let redlockClients :=
               match (match o_redlock o with Some r => clients r | None => None end) with
               | Some cs => cs
               | None => [c]
               end in
             r ← new_Redlock redlockClients
                   (match o_redlock o with
                    | Some r => rest r
                    | None => {| retryCount := None; retryDelay := None |}
                    end);
             nb ← new_Redlock redlockClients
                    {| retryCount := Some 0; retryDelay := None |};
             mret (Some r, Some nb)
           else mret (None, None));
  (if o_monitor o then perform Monitor else mret tt);;
  perform (Log Debug ("Redis Cacher created. Prefix: " +:+ pfx));;
  mret {| prefix := pfx; options_ := o; client_ := c;
          redlock_ := fst locks; redlockNonBlocking := snd locks |}.

Section Facade.

(** [JSON.parse] (the exception it throws on the left) and
    [JSON.stringify] on the plain data of [value], which holds no cycle and
    no BigInt, so that serializing it returns: a text, or [undefined] for
    a value without a JSON form. *)
Variable JSON_parse : string → err + value.
Variable JSON_stringify : value → value.

(** The backing store as seen through [this.client]: the settled promise
    of each round trip. A pipeline answers with one [[err, result]] pair
    per queued command. *)
Variable reply_get : string → promise (option string).
Variable reply_call : command → promise value.
Variable reply_get_ttl :
  string → promise ((option err * option string) * (option err * value)).

Variable this : cacher.

Definition client_get (k : string) : M (promise (option string)) :=
  perform (Call (GET k));; mret (reply_get k).

Definition client_call (c : command) : M (promise value) :=
  perform (Call c);; mret (reply_call c).

(** [if (data)] on a reply of GET; inside the branch [data] is a string,
    which [text] reads. *)
Definition found (data : option string) : bool := truthy (raw data).
Definition text (data : option string) : string := default "" data.

(** [get(key)] *)
Definition get (key : string) : M (promise value) :=
  perform (Log Debug ("GET " +:+ key));;
  p ← client_get (prefix this +:+ key);
  then_ p (fun data =>
    returned ← (if found data then
                  perform (Log Debug ("FOUND " +:+ key));;
                  match JSON_parse (text data) with
                  | inr v => mret (Some v)
                  | inl e => perform (LogError "Redis result parse error." e);;
                             mret None
                  end
                else mret None);
    match returned with
    | Some v => mret (Fulfilled v)
    | None => mret (Fulfilled VNull)
    end).

(** [set(key, data, ttl)] *)
Definition set (key : string) (data : value) (ttl : value) : M (promise value) :=
  let data := JSON_stringify data in
  perform (Log Debug ("SET " +:+ key));;
  let ttl := if nullish ttl then o_ttl (options_ this) else ttl in
  if truthy ttl then
    client_call (SETEX (prefix this +:+ key) ttl data)
  else
    client_call (SET (prefix this +:+ key) data).

(** [del(deleteTargets)]: one key, or an array of keys. *)
Definition del (deleteTargets : string + list string) : M (promise value) :=
  let deleteTargets :=
    match deleteTargets with
    | inr ks => ks
    | inl k => [k]
    end in
  let keysToDelete := map (fun key => prefix this +:+ key) deleteTargets in
  perform (Log Debug ("DELETE " +:+ join "," keysToDelete));;
  p ← client_call (DEL keysToDelete);
  catch_ p (fun e =>
    perform (LogError ("Redis 'del' error. Key: " +:+ join "," keysToDelete) e);;
    throw e).

(** [getWithTTL(key)] *)
Definition getWithTTL (key : string) : M (promise (value * value)) :=
  perform (Exec [GET (prefix this +:+ key); TTL (prefix this +:+ key)]);;
  then_ (reply_get_ttl (prefix this +:+ key)) (fun res =>
    let '(err0, data) := fst res in
    let '(err1, ttl) := snd res in
    match err0 with
    | Some e0 => mret (Rejected e0)
    | None =>
        match err1 with
        | Some e1 => mret (Rejected e1)
        | None =>
            data ← (if found data then
                      perform (Log Debug ("FOUND " +:+ key));;
                      match JSON_parse (text data) with
                      | inr v => mret v
                      | inl e => perform (LogError "Redis result parse error." e);;
                                 mret VNull
                      end
                    else mret (raw data));
            mret (Fulfilled (data, ttl))
        end
    end).

(** [close()] *)
Definition close : M (promise value) := client_call QUIT.

End Facade.

(** ** Locks *)

Definition LockError (msg : string) : err := Err "LockError" msg None.

(** [lock.unlock()] *)
Definition unlock (l : lock_handle) : M unit := perform (Unlock l).

Section Locks.

(** Whether the [n]-th acquisition round (counted from 0) of a Redlock
    instance on a resource reaches a quorum of its clients. *)
Variable quorum : redlock → string → nat → bool.

(** The retry budget of an instance whose settings give none. *)
Variable default_retryCount : nat.

(** Modelled from the spec: the Lock Coordinator's acquisition, which is
    the [lock] method of the redlock package and not part of this
    repository. Every round asks the clients once; a round without quorum
    is retried while the retry budget lasts, and fails after that. *)
Fixpoint acquire (r : redlock) (resource : string) (ttl : value)
    (retries n : nat) : M (promise lock_handle) :=
  perform (Acquire r resource ttl);;
  if quorum r resource n then
    mret (Fulfilled {| lk_owner := r; lk_resource := resource; lk_ttl := ttl |})
  else
    match retries with
    | O => mret (Rejected (LockError "Exceeded attempts to lock the resource"))
    | S retries' => acquire r resource ttl retries' (S n)
    end.

Definition Redlock_lock (r : redlock) (resource : string) (ttl : value)
    : M (promise lock_handle) :=
  acquire r resource ttl
    (default default_retryCount (retryCount (rl_settings r))) 0.

Variable this : cacher.

(** [lock(key, ttl = 15000)] *)
Definition lock (key : string) (ttl : value) : M (promise (unit → M unit)) :=
  let ttl := or_default ttl (VNum 15000) in
  let key := (prefix this +:+ key) +:+ "-lock" in
  match redlock_ this with
  | None => throw (TypeError "Cannot read property 'lock' of undefined")
  | Some r =>
      p ← Redlock_lock r key ttl;
      then_ p (fun lock => mret (Fulfilled (fun _ : unit => unlock lock)))
  end.

(** [tryLock(key, ttl = 15000)] *)
Definition tryLock (key : string) (ttl : value) : M (promise (unit → M unit)) :=
  let ttl := or_default ttl (VNum 15000) in
  let key := (prefix this +:+ key) +:+ "-lock" in
  match redlockNonBlocking this with
  | None => throw (TypeError "Cannot read property 'lock' of undefined")
  | Some r =>
      p ← Redlock_lock r key ttl;
      then_ p (fun lock => mret (Fulfilled (fun _ : unit => unlock lock)))
  end.

End Locks.

(** ** The scan-and-delete engine *)

(** [match.replace(/\*\*/g, "*")]: one pass from the left, each match of
    two stars is replaced by one and scanning goes on after the match. *)
Fixpoint collapse (s : string) : string :=
  match s with
  | EmptyString => EmptyString
  | String c s' =>
      if Ascii.eqb c "*"%char then
        match s' with
        | String c' s'' =>
            if Ascii.eqb c' "*"%char then String "*"%char (collapse s'')
            else String c (collapse s')
        | EmptyString => String c EmptyString
        end
      else String c (collapse s')
  end.

(** What the key stream of one scan, and the deletes issued for it, report
    back: the stream's "data", "error" and "end" events, and the settling
    of the oldest unanswered [node.del(keys)]. *)
Inductive signal :=
| Data (keys : option (list string))
| StreamError (e : err)
| End
| DelDone
| DelFailed (e : err).

(** One call of [_nodeScanDel(node, pattern)]: the stream (flowing or
    paused), the deletes not answered yet, and the promise it returned. *)
Record scan := Scan {
  sc_node : node;
  sc_pattern : string;
  sc_flowing : bool;
  sc_inflight : list (list string);
  sc_promise : promise unit
}.

(** [err.pattern = pattern] *)
Definition set_pattern (e : err) (pattern : string) : err :=
  {| e_name := e_name e; e_message := e_message e; e_pattern := Some pattern |}.

(** [_nodeScanDel(node, pattern)]: opens the stream and attaches the three
    listeners below. *)
Definition _nodeScanDel (n : node) (pattern : string) : scan * list effect :=
  (Scan n pattern true [] Pending, [ScanStream n pattern 100]).

(** [stream.on("data", (keys = []) => ...)] *)
Definition on_data (s : scan) (keys : option (list string)) : scan * list effect :=
  let keys := default [] keys in
  if (length keys =? 0)%nat then (s, [])
  else
    (Scan (sc_node s) (sc_pattern s) false (sc_inflight s ++ [keys]) (sc_promise s),
     [Pause (sc_node s); NodeDel (sc_node s) keys]).

(** [.then(() => { stream.resume(); })] of the delete *)
Definition on_del_then (s : scan) : scan * list effect :=
  (Scan (sc_node s) (sc_pattern s) true (tail (sc_inflight s)) (sc_promise s),
   [Resume (sc_node s)]).

(** [.catch((err) => { err.pattern = pattern; return reject(err); })] *)
Definition on_del_catch (s : scan) (e : err) : scan * list effect :=
  let e := set_pattern e (sc_pattern s) in
  (Scan (sc_node s) (sc_pattern s) (sc_flowing s) (tail (sc_inflight s))
        (reject (sc_promise s) e),
   []).

(** [stream.on("error", (err) => ...)] *)
Definition on_error (s : scan) (e : err) : scan * list effect :=
  (Scan (sc_node s) (sc_pattern s) (sc_flowing s) (sc_inflight s)
        (reject (sc_promise s) e),
   [ConsoleError "Error occured while deleting keys from node"]).

(** [stream.on("end", () => ...)] *)
Definition on_end (s : scan) : scan * list effect :=
  (Scan (sc_node s) (sc_pattern s) (sc_flowing s) (sc_inflight s)
        (resolve (sc_promise s) tt),
   [ConsoleLog "End deleting keys from node"]).

Definition scan_step (s : scan) (sig : signal) : scan * list effect :=
  match sig with
  | Data keys => on_data s keys
  | StreamError e => on_error s e
  | End => on_end s
  | DelDone => on_del_then s
  | DelFailed e => on_del_catch s e
  end.

Fixpoint scan_run (s : scan) (sigs : list signal) : scan * list effect :=
  match sigs with
  | [] => (s, [])
  | sig :: sigs' =>
      let '(s1, t1) := scan_step s sig in
      let '(s2, t2) := scan_run s1 sigs' in
      (s2, t1 ++ t2)
  end.

(** What a readable stream and a connection can do: a paused stream emits
    no "data", and only a delete that was issued can settle. *)
Definition enabled (s : scan) (sig : signal) : bool :=
  match sig with
  | Data _ => sc_flowing s
  | DelDone | DelFailed _ =>
      match sc_inflight s with
      | [] => false
      | _ :: _ => true
      end
  | StreamError _ | End => true
  end.

Fixpoint admissible (s : scan) (sigs : list signal) : bool :=
  match sigs with
  | [] => true
  | sig :: sigs' => enabled s sig && admissible (fst (scan_step s sig)) sigs'
  end.

(** [Promise.all(ps)] at the time it is called: fulfilled at once when
    there is nothing to wait for, rejected by the first member that is
    already rejected. *)
Fixpoint first_rejection (ps : list (promise unit)) : option err :=
  match ps with
  | [] => None
  | Rejected e :: _ => Some e
  | _ :: ps' => first_rejection ps'
  end.

Definition Promise_all (ps : list (promise unit)) : promise unit :=
  match first_rejection ps with
  | Some e => Rejected e
  | None => if forallb is_fulfilled ps then Fulfilled tt else Pending
  end.

(** The reaction of [Promise.all] when member [p] has just settled and the
    members now are [ps]. *)
Definition all_notify (all : promise unit) (ps : list (promise unit))
    (p : promise unit) : promise unit :=
  match p with
  | Rejected e => reject all e
  | Fulfilled _ => if forallb is_fulfilled ps then resolve all tt else all
  | Pending => all
  end.

(** The promise [_scanDel(pattern)] returns: the scan on the standalone
    client, or [Promise.all] over one scan per node of the cluster. *)
Inductive job :=
| OnNode (s : scan)
| OnAll (ss : list scan) (all : promise unit).

Definition job_promise (j : job) : promise unit :=
  match j with
  | OnNode s => sc_promise s
  | OnAll _ all => all
  end.


(** Signal [sig] reaches the [k]-th scan of a job. *)
Definition job_step (j : job) (k : nat) (sig : signal) : job * list effect :=
  match j with
  | OnNode s =>
      match k with
      | O => let '(s', t) := scan_step s sig in (OnNode s', t)
      | S _ => (j, [])
      end
  | OnAll ss all =>
      match ss !! k with
      | Some s =>
          let '(s', t) := scan_step s sig in
          let ss' := <[k := s']> ss in
          let all' :=
            match sc_promise s with
            | Pending => all_notify all (map sc_promise ss') (sc_promise s')
            | _ => all
            end in
          (OnAll ss' all', t)
      | None => (j, [])
      end
  end.

Fixpoint job_run (j : job) (sigs : list (nat * signal)) : job * list effect :=
  match sigs with
  | [] => (j, [])
  | (k, sig) :: sigs' =>
      let '(j1, t1) := job_step j k sig in
      let '(j2, t2) := job_run j1 sigs' in
      (j2, t1 ++ t2)
  end.

(** The promise chain built by [_sequentialPromises]: [Promise.resolve()]
    and, for each element, [chain.then(() => this._scanDel(element))],
    whose callback has not run yet, has run and returned a job, or was
    skipped because the promise before it was rejected. *)
Inductive reaction :=
| Waiting
| Started (j : job)
| Skipped (e : err).

Inductive chain :=
| PromiseResolve
| Then (c : chain) (element : string) (r : reaction).

Definition chain_promise (c : chain) : promise unit :=
  match c with
  | PromiseResolve => Fulfilled tt
  | Then _ _ Waiting => Pending
  | Then _ _ (Started j) => job_promise j
  | Then _ _ (Skipped e) => Rejected e
  end.

Fixpoint depth (c : chain) : nat :=
  match c with
  | PromiseResolve => O
  | Then c0 _ _ => S (depth c0)
  end.

(** A signal of an engine run: the position of the pattern in the list
    given to [_sequentialPromises], the position of the node among the
    scans of that pattern, and what the node reports. *)
Record event := Event {
  ev_pattern : nat;
  ev_node : nat;
  ev_signal : signal
}.

(** The promise [clean] returns and the chain behind it. *)
Record cleaning := Cleaning {
  cl_chain : chain;
  cl_promise : promise unit
}.

Section Engine.

(** [this.client.nodes()]: the connections of a cluster's pool. *)
Variable nodes_of : client → list node.

Variable this : cacher.

(** [_clusterScanDel(pattern)] *)
Definition _clusterScanDel (pattern : string) : job * list effect :=
  let nodes := nodes_of (client_ this) in
  let started := map (fun node => _nodeScanDel node pattern) nodes in
  let scanDelPromises := map fst started in
  (OnAll scanDelPromises (Promise_all (map sc_promise scanDelPromises)),
   concat (map snd started)).

(** [_scanDel(pattern)] *)
Definition _scanDel (pattern : string) : job * list effect :=
  if instanceof_Cluster (client_ this) then
    _clusterScanDel pattern
  else
    let '(s, t) := _nodeScanDel (Standalone (client_ this)) pattern in
    (OnNode s, t).

(** [_sequentialPromises(elements)] *)
Definition _sequentialPromises (elements : list string) : chain :=
  fold_left (fun chain element => Then chain element Waiting)
            elements PromiseResolve.

(** Runs the callbacks that are due: a [then] whose predecessor is
    fulfilled calls [_scanDel], one whose predecessor is rejected is
    skipped and passes the rejection on. Callbacks run as soon as they are
    due, before the next signal of a node; the delay with which the promise
    library schedules them is not modelled. *)
Fixpoint flush (c : chain) : chain * list effect :=
  match c with
  | PromiseResolve => (c, [])
  | Then c0 element r =>
      let '(c0', t0) := flush c0 in
      match r with
      | Waiting =>
          match chain_promise c0' with
          | Fulfilled _ =>
              let '(j, t) := _scanDel element in
              (Then c0' element (Started j), t0 ++ t)
          | Rejected e => (Then c0' element (Skipped e), t0)
          | Pending => (Then c0' element Waiting, t0)
          end
      | _ => (Then c0' element r, t0)
      end
  end.

(** Hands a signal to the job started for the [i]-th element. *)
Fixpoint deliver (c : chain) (i k : nat) (sig : signal) : chain * list effect :=
  match c with
  | PromiseResolve => (c, [])
  | Then c0 element r =>
      if decide (i = depth c0) then
        match r with
        | Started j =>
            let '(j', t) := job_step j k sig in
            (Then c0 element (Started j'), t)
        | _ => (c, [])
        end
      else
        let '(c0', t) := deliver c0 i k sig in
        (Then c0' element r, t)
  end.

(** [.catch((err) => { this.logger.error(...); throw err; })] on the
    chain: settles the promise of [clean] when the chain has settled. *)
Definition on_settled (p : promise unit) (c : chain) : promise unit * list effect :=
  match p with
  | Pending =>
      match chain_promise c with
      | Rejected e =>
          (Rejected e,
           [LogError ("Redis 'scanDel' error. Pattern: " +:+ show_pattern (e_pattern e)) e])
      | Fulfilled _ => (Fulfilled tt, [])
      | Pending => (Pending, [])
      end
  | _ => (p, [])
  end.

(** [clean(match = "*")]: a pattern, an array of patterns, or nothing. *)
Definition clean (match_ : option (string + list string)) : cleaning * list effect :=
  let match_ := default (inl "*") match_ in
  let cleaningPatterns :=
    match match_ with
    | inr ms => ms
    | inl m => [m]
    end in
  let normalizedPatterns :=
    map (fun m => prefix this +:+ collapse m) cleaningPatterns in
  let '(c, t) := flush (_sequentialPromises normalizedPatterns) in
  let '(p, t') := on_settled Pending c in
  (Cleaning c p,
   Log Debug ("CLEAN " +:+ join "," cleaningPatterns) :: t ++ t').

Definition clean_step (st : cleaning) (ev : event) : cleaning * list effect :=
  let '(c1, t1) := deliver (cl_chain st) (ev_pattern ev) (ev_node ev) (ev_signal ev) in
  let '(c2, t2) := flush c1 in
  let '(p, t3) := on_settled (cl_promise st) c2 in
  (Cleaning c2 p, t1 ++ t2 ++ t3).

Fixpoint clean_run (st : cleaning) (evs : list event) : cleaning * list effect :=
  match evs with
  | [] => (st, [])
  | ev :: evs' =>
      let '(st1, t1) := clean_step st ev in
      let '(st2, t2) := clean_run st1 evs' in
      (st2, t1 ++ t2)
  end.

(** A call of [clean] followed by the signals of the nodes. *)
Definition clean_then (match_ : option (string + list string)) (evs : list event)
    : cleaning * list effect :=
  let '(st, t) := clean match_ in
  let '(st', t') := clean_run st evs in
  (st', t ++ t').

End Engine.

(** ** Vocabulary of the statements *)

(** The signals of a job run that are addressed to its [k]-th scan. *)
Fixpoint signals_to (k : nat) (sigs : list (nat * signal)) : list signal :=
  match sigs with
  | [] => []
  | (k', sig) :: sigs' =>
      if decide (k' = k) then sig :: signals_to k sigs' else signals_to k sigs'
  end.


(** A scan reaches the end of its stream without error: "end" arrives and
    neither the stream nor a delete has failed before it. *)
Fixpoint ends_clean (sigs : list signal) : bool :=
  match sigs with
  | [] => false
  | End :: _ => true
  | StreamError _ :: _ | DelFailed _ :: _ => false
  | _ :: sigs' => ends_clean sigs'
  end.

(** A scan fails: the stream or a delete reports an error before "end". *)
Fixpoint fails (sigs : list signal) : bool :=
  match sigs with
  | [] => false
  | End :: _ => false
  | StreamError _ :: _ | DelFailed _ :: _ => true
  | _ :: sigs' => fails sigs'
  end.

(** The elements of a chain, in the order [_sequentialPromises] took them. *)
Fixpoint chain_elements (c : chain) : list string :=
  match c with
  | PromiseResolve => []
  | Then c0 element _ => chain_elements c0 ++ [element]
  end.

(** The patterns [clean] works on: its argument, or the default. *)
Definition patterns_of (match_ : option (string + list string)) : list string :=
  match match_ with
  | None => ["*"]
  | Some (inl m) => [m]
  | Some (inr ms) => ms
  end.

Definition is_ScanStream (e : effect) : bool :=
  match e with
  | ScanStream _ _ _ => true
  | _ => false
  end.

(** Effects that create a connection or talk to a node. *)
Definition touches_network (e : effect) : bool :=
  match e with
  | NewRedis _ | NewCluster _ _ | NewRedlock _ | Listen _ | Monitor
  | Call _ | Exec _ | Acquire _ _ _ | Unlock _
  | ScanStream _ _ _ | Pause _ | Resume _ | NodeDel _ _ => true
  | Log _ _ | LogError _ _ | Fatal _ | ConsoleError _ | ConsoleLog _ => false
  end.


(** [s] contains two stars in a row. *)
Fixpoint has_double_star (s : string) : bool :=
  match s with
  | EmptyString => false
  | String c s' =>
      match s' with
      | String c' _ =>
          (Ascii.eqb c "*"%char && Ascii.eqb c' "*"%char) || has_double_star s'
      | EmptyString => false
      end
  end.

(** At most one delete is unanswered, and the stream is paused while one
    is. *)
Definition backpressure (s : scan) : Prop :=
  length (sc_inflight s) ≤ 1 ∧ (sc_inflight s ≠ [] → sc_flowing s = false).

(** What [Promise.all] knows about its members: it is fulfilled exactly
    when all of them are, and rejected exactly when one of them is. *)
Definition all_settles (ps : list (promise unit)) (all : promise unit) : Prop :=
  (all = Fulfilled tt ↔ ∀ k p, ps !! k = Some p → is_fulfilled p = true) ∧
  (is_rejected all = true ↔ ∃ k p, ps !! k = Some p ∧ is_rejected p = true).

(** Every callback of the chain has run and its job is fulfilled. *)
Inductive all_done : chain → Prop :=
| done_resolve : all_done PromiseResolve
| done_then c el j :
    all_done c → job_promise j = Fulfilled tt → all_done (Then c el (Started j)).

(** The chain between a signal and the callbacks it makes due: jobs were
    started for a first part of the elements only, all of them but the last
    are fulfilled, no callback after a started one has run, and a skipped
    callback carries the rejection of the promise before it. *)
Inductive staged : chain → Prop :=
| staged_done c : all_done c → staged c
| staged_last c el j : all_done c → staged (Then c el (Started j))
| staged_waiting c el : staged c → staged (Then c el Waiting)
| staged_skipped c el e :
    staged c → chain_promise c = Rejected e → staged (Then c el (Skipped e)).

(** The chain at rest: one pattern at a time. Either all jobs are
    fulfilled; or the last job started is still pending and every later
    callback waits; or it is rejected and every later callback was skipped
    with its error. *)
Inductive sequential : chain → Prop :=
| seq_done c : all_done c → sequential c
| seq_last c el j :
    all_done c → job_promise j ≠ Fulfilled tt → sequential (Then c el (Started j))
| seq_waiting c el :
    sequential c → chain_promise c = Pending → sequential (Then c el Waiting)
| seq_skipped c el e :
    sequential c → chain_promise c = Rejected e → sequential (Then c el (Skipped e)).

(** The round trips to the store among the effects of a facade call. *)
Definition is_round_trip (e : effect) : bool :=
  match e with
  | Call _ | Exec _ => true
  | _ => false
  end.

Definition round_trips (t : list effect) : list effect :=
  List.filter is_round_trip t.

(** The clients constructed among the effects of [init]. *)
Definition is_connect (e : effect) : bool :=
  match e with
  | NewRedis _ | NewCluster _ _ => true
  | _ => false
  end.

(** The key and the data a write command stores. *)
Definition written (c : command) : option (string * value) :=
  match c with
  | SET k d | SETEX k _ d => Some (k, d)
  | _ => None
  end.

(** The batches a trace deletes, in order. *)
Fixpoint deleted (t : list effect) : list (list string) :=
  match t with
  | [] => []
  | NodeDel _ keys :: t' => keys :: deleted t'
  | _ :: t' => deleted t'
  end.

(** The batches with keys among the signals of a stream, in order. *)
Fixpoint yielded (sigs : list signal) : list (list string) :=
  match sigs with
  | [] => []
  | Data (Some (k :: ks)) :: sigs' => (k :: ks) :: yielded sigs'
  | _ :: sigs' => yielded sigs'
  end.

(** The jobs of a chain that were started and are not fulfilled. *)
Fixpoint unfinished (c : chain) : nat :=
  match c with
  | PromiseResolve => 0
  | Then c0 _ (Started j) =>
      (if is_fulfilled (job_promise j) then 0 else 1) + unfinished c0
  | Then c0 _ _ => unfinished c0
  end.

(** A run of [n] stars. *)
Fixpoint stars (n : nat) : string :=
  match n with
  | O => EmptyString
  | S n' => String "*" (stars n')
  end.

(** The chain [c] followed by one waiting callback per element of [rest]:
    what [_sequentialPromises] builds on top of [c]. *)
Definition waiting_on (c : chain) (rest : list string) : chain :=
  fold_left (fun chain element => Then chain element Waiting) rest c.

(** The signals of a scan whose stream yields batches, has its deletes
    done, and ends last. *)
Fixpoint finishes (sigs : list signal) : bool :=
  match sigs with
  | End :: [] => true
  | Data _ :: sigs' => finishes sigs'
  | DelDone :: sigs' => finishes sigs'
  | _ => false
  end.

(** The signals of standalone scans, one list per pattern from position [i]
    on, the patterns one after the other. *)
Fixpoint events_for (i : nat) (runs : list (list signal)) : list event :=
  match runs with
  | [] => []
  | sigs :: runs' => map (Event i 0) sigs ++ events_for (S i) runs'
  end.

(** No callback of the chain is still waiting to run. *)
Fixpoint no_waiting (c : chain) : bool :=
  match c with
  | PromiseResolve => true
  | Then c0 _ Waiting => false
  | Then c0 _ _ => no_waiting c0
  end.

(** Every callback of the chain has run, on a pool without nodes: each job
    is a [Promise.all] over nothing. *)
Fixpoint all_empty_jobs (c : chain) : bool :=
  match c with
  | PromiseResolve => true
  | Then c0 _ (Started (OnAll [] (Fulfilled _))) => all_empty_jobs c0
  | Then _ _ _ => false
  end.


(** ** A serializer to run the facade on

    [JSON.parse] and [JSON.stringify] restricted to the texts [null],
    [true], [false] and the integer literals. On these texts, and on texts
    that are no JSON at all such as the empty one, it answers as the
    built-ins do; arrays, objects, strings and fractions are left out. *)
Module ScalarJSON.

Definition SyntaxError (msg : string) : err := Err "SyntaxError" msg None.

Fixpoint digits (s : string) (acc : Z) : option Z :=
  match s with
  | EmptyString => Some acc
  | String c s' =>
      let n := Z.of_nat (nat_of_ascii c) in
      if ((48 <=? n) && (n <=? 57))%Z then digits s' (10 * acc + (n - 48))%Z
      else None
  end.

(** [0], or a digit sequence that does not start with [0]. *)
Definition natural (s : string) : option Z :=
  match s with
  | EmptyString => None
  | String "0" EmptyString => Some 0%Z
  | String "0" _ => None
  | _ => digits s 0
  end.

Definition integer (s : string) : option Z :=
  match s with
  | String "-" s' => Z.opp <$> natural s'
  | _ => natural s
  end.

Definition parse (s : string) : err + value :=
  if String.eqb s "null" then inr VNull
  else if String.eqb s "true" then inr (VBool true)
  else if String.eqb s "false" then inr (VBool false)
  else match integer s with
       | Some n => inr (VNum n)
       | None =>
           if String.eqb s "" then inl (SyntaxError "Unexpected end of JSON input")
           else inl (SyntaxError "Unexpected token in JSON")
       end.

Definition stringify (v : value) : value :=
  match v with
  | VNull => VStr "null"
  | VBool true => VStr "true"
  | VBool false => VStr "false"
  | VNum n => VStr (pretty n)
  | _ => VUndefined
  end.

End ScalarJSON.

(** A standalone cacher and a cluster cacher with two nodes, for the
    examples. *)
Module Sample.

Definition installed : packages := {| has_ioredis := true; has_redlock := true |}.

Definition plain : opts :=
  {| o_ttl := VNum 30; o_redis := VStr "redis://localhost:6379";
     o_cluster := None; o_redlock := None; o_monitor := false |}.

Definition sharded : opts :=
  {| o_ttl := VUndefined; o_redis := VUndefined;
     o_cluster := Some {| nodes := VArr [VStr "10.0.0.1:7000"; VStr "10.0.0.2:7000"];
                          options := VUndefined |};
     o_redlock := None; o_monitor := false |}.

Definition no_nodes : opts :=
  {| o_ttl := VUndefined; o_redis := VUndefined;
     o_cluster := Some {| nodes := VUndefined; options := VUndefined |};
     o_redlock := None; o_monitor := false |}.

Definition standalone : cacher :=
  {| prefix := "MOL-"; options_ := plain;
     client_ := Redis (VStr "redis://localhost:6379");
     redlock_ := None; redlockNonBlocking := None |}.

Definition cluster : cacher :=
  {| prefix := "MOL-"; options_ := sharded;
     client_ := RedisCluster (VArr [VStr "10.0.0.1:7000"; VStr "10.0.0.2:7000"])
                             VUndefined;
     redlock_ := None; redlockNonBlocking := None |}.

Definition pool (c : client) : list node :=
  match c with
  | RedisCluster _ _ => [Member "10.0.0.1:7000"; Member "10.0.0.2:7000"]
  | Redis _ => []
  end.

Definition ECONNRESET : err := Err "Error" "read ECONNRESET" None.

End Sample.

(** The reading of [get] that takes every stored value that does not
    deserialize, the empty string included, to be logged as a parse error. *)
Definition get_logs_every_unparsable (JSON_parse : string → err + value)
    (reply_get : string → promise (option string)) (this : cacher)
    (key : string) : Prop :=
  let m := get JSON_parse reply_get this key in
  (reply_get (prefix this +:+ key) = Fulfilled None →
   result m = Return (Fulfilled VNull)) ∧
  (∀ s e, reply_get (prefix this +:+ key) = Fulfilled (Some s) →
          JSON_parse s = inl e →
          result m = Return (Fulfilled VNull) ∧
          In (LogError "Redis result parse error." e) (trace m)).

Ltac run := unfold mbind, M_bind, mret, M_ret, perform, throw, exit in *; simpl in *.


(** * Properties of the facade *)

(** C9: in cluster mode ([opts.cluster] set) without [cluster.nodes], [init]
    throws BrokerOptionsError before it performs any effect at all: no client
    is constructed, no listener is attached, nothing is sent. *)
Theorem init_cluster_without_nodes (pkgs : packages) (pfx : string) (o : opts)
    (cl : cluster_opts) :
  has_ioredis pkgs = true →
  o_cluster o = Some cl →
  truthy (nodes cl) = false →
  init pkgs pfx o =
    (Throw (BrokerOptionsError "No connection details defined for cluster"), []).
Proof.
  intros Hio Hcl Hnodes. unfold init. rewrite Hio, Hcl, Hnodes. reflexivity.
Qed.

Lemma init_cluster_without_nodes_witness :
  init Sample.installed "MOL-" Sample.no_nodes =
    (Throw (BrokerOptionsError "No connection details defined for cluster"), []).
Proof.
  apply (init_cluster_without_nodes Sample.installed "MOL-" Sample.no_nodes
           {| nodes := VUndefined; options := VUndefined |}); reflexivity.
Defined.

Section FacadeProperties.

Variable JSON_parse : string → err + value.
Variable JSON_stringify : value → value.
Variable reply_get : string → promise (option string).
Variable reply_call : command → promise value.
Variable reply_get_ttl :
  string → promise ((option err * option string) * (option err * value)).
Variable this : cacher.

Lemma found_spec (d : option string) :
  found d = false ↔ d = None ∨ d = Some "".
Proof.
  unfold found. destruct d as [s|]; simpl.
  - destruct (String.eqb_spec s "") as [->|Hne]; simpl.
    + split; auto.
    + split; [discriminate|]. intros [H|H]; congruence.
  - split; auto.
Qed.

(** C1 (as amended): when the store answers [get], the call is fulfilled,
    never rejected. A missing key and an empty-string value are a miss:
    [null] with nothing parsed or logged. A non-empty value that
    [JSON.parse] rejects gives [null] after the parse error is logged. *)
Theorem get_lenient (key : string) (d : option string) :
  reply_get (prefix this +:+ key) = Fulfilled d →
  let m := get JSON_parse reply_get this key in
  (∃ v, result m = Return (Fulfilled v)) ∧
  (d = None ∨ d = Some "" →
   m = (Return (Fulfilled VNull),
        [Log Debug ("GET " +:+ key); Call (GET (prefix this +:+ key))])) ∧
  (∀ s e, d = Some s → s ≠ "" → JSON_parse s = inl e →
          result m = Return (Fulfilled VNull) ∧
          In (LogError "Redis result parse error." e) (trace m)).
Proof.
  intros Hreply m. subst m. unfold get, client_get. run. rewrite Hreply.
  unfold then_. split; [|split].
  - destruct (found d); run; [|eauto].
    destruct (JSON_parse (text d)); run; eauto.
  - intros Hd. apply found_spec in Hd. rewrite Hd. reflexivity.
  - intros s e -> Hs He.
    assert (Hf : found (Some s) = true).
    { destruct (found (Some s)) eqn:E; [done|].
      apply found_spec in E as [E|E]; congruence. }
    rewrite Hf. run. rewrite He. run. split; [done|]. auto 10.
Qed.

(** C5: [set] sends the serialized value under the prefixed key. The
    effective TTL is the argument, or [opts.ttl] when the argument is
    [undefined] or [null]; a falsy effective TTL gives SET (no expiry),
    any other gives SETEX with that TTL. *)
Theorem set_ttl_policy (key : string) (data ttl eff : value) :
  eff = (if nullish ttl then o_ttl (options_ this) else ttl) →
  let m := set JSON_stringify reply_call this key data ttl in
  let k := prefix this +:+ key in
  let d := JSON_stringify data in
  (truthy eff = false →
   m = (Return (reply_call (SET k d)),
        [Log Debug ("SET " +:+ key); Call (SET k d)])) ∧
  (truthy eff = true →
   m = (Return (reply_call (SETEX k eff d)),
        [Log Debug ("SET " +:+ key); Call (SETEX k eff d)])).
Proof.
  intros -> m k d. subst m k d. unfold set, client_call. run.
  split; intros ->; reflexivity.
Qed.

(** [getWithTTL] on the answers of the pipeline: one round trip; an error
    of either command rejects the call; otherwise the TTL is returned
    beside the parsed value, [null] for a non-empty value that does not
    parse, and the raw reply when the reply is falsy. *)
Lemma getWithTTL_policy (key : string) (err0 err1 : option err)
    (data : option string) (ttl : value) :
  reply_get_ttl (prefix this +:+ key) = Fulfilled ((err0, data), (err1, ttl)) →
  let m := getWithTTL JSON_parse reply_get_ttl this key in
  let k := prefix this +:+ key in
  List.filter touches_network (trace m) = [Exec [GET k; TTL k]] ∧
  (∀ e0, err0 = Some e0 → result m = Return (Rejected e0)) ∧
  (∀ e1, err0 = None → err1 = Some e1 → result m = Return (Rejected e1)) ∧
  (err0 = None → err1 = None →
   (found data = false → result m = Return (Fulfilled (raw data, ttl))) ∧
   (∀ v, found data = true → JSON_parse (text data) = inr v →
         result m = Return (Fulfilled (v, ttl))) ∧
   (∀ e, found data = true → JSON_parse (text data) = inl e →
         result m = Return (Fulfilled (VNull, ttl)) ∧
         In (LogError "Redis result parse error." e) (trace m))).
Proof.
  intros Hreply m k. subst m k. unfold getWithTTL. run. rewrite Hreply.
  unfold then_. simpl.
  destruct err0 as [e0|], err1 as [e1|]; run;
    try (repeat split; congruence).
  destruct (found data) eqn:Hf; run.
  - destruct (JSON_parse (text data)) as [e|v] eqn:Hp; run.
    + repeat split; try congruence.
      match goal with H : inl _ = inl _ |- _ => injection H as <- end.
      auto.
    + repeat split; congruence.
  - repeat split; congruence.
Qed.

End FacadeProperties.

Lemma get_lenient_witness :
  result (get ScalarJSON.parse (fun _ => Fulfilled (Some "{oops"))
              Sample.standalone "k")
  = Return (Fulfilled VNull)
  ∧ In (LogError "Redis result parse error."
                 (ScalarJSON.SyntaxError "Unexpected token in JSON"))
       (trace (get ScalarJSON.parse (fun _ => Fulfilled (Some "{oops"))
                   Sample.standalone "k")).
Proof.
  apply (proj2 (proj2 (get_lenient ScalarJSON.parse
                         (fun _ => Fulfilled (Some "{oops"))
                         Sample.standalone "k" (Some "{oops") eq_refl))
           "{oops" (ScalarJSON.SyntaxError "Unexpected token in JSON"));
    [reflexivity | discriminate | reflexivity].
Defined.

(** C1 (as stated) fails on a key that holds the empty string: [JSON.parse]
    rejects the empty text, yet [get] answers [null] without parsing and
    logs no parse error. *)
Lemma get_empty_string_unlogged :
  ¬ get_logs_every_unparsable ScalarJSON.parse (fun _ => Fulfilled (Some ""))
      Sample.standalone "k".
Proof.
  intros [_ H].
  destruct (H "" (ScalarJSON.SyntaxError "Unexpected end of JSON input")
              eq_refl eq_refl) as [_ Hin].
  simpl in Hin. intuition discriminate.
Qed.

Lemma set_ttl_policy_witness :
  set ScalarJSON.stringify (fun _ => Fulfilled (VStr "OK")) Sample.standalone
      "k" (VNum 5) VUndefined
  = (Return (Fulfilled (VStr "OK")),
     [Log Debug "SET k"; Call (SETEX "MOL-k" (VNum 30) (VStr "5"))])
  ∧ set ScalarJSON.stringify (fun _ => Fulfilled (VStr "OK")) Sample.standalone
      "k" (VNum 5) (VNum 0)
  = (Return (Fulfilled (VStr "OK")),
     [Log Debug "SET k"; Call (SET "MOL-k" (VStr "5"))]).
Proof.
  split.
  - apply (proj2 (set_ttl_policy ScalarJSON.stringify
                    (fun _ => Fulfilled (VStr "OK"))
                    Sample.standalone "k" (VNum 5) VUndefined (VNum 30) eq_refl)).
    reflexivity.
  - apply (proj1 (set_ttl_policy ScalarJSON.stringify
                    (fun _ => Fulfilled (VStr "OK"))
                    Sample.standalone "k" (VNum 5) (VNum 0) (VNum 0) eq_refl)).
    reflexivity.
Defined.

(** C6 at a key that holds the empty string: [JSON.parse] rejects the empty
    text and [get] answers [null] for it, but [getWithTTL] hands the raw
    empty string back as the value. *)
Lemma getWithTTL_empty_string :
  ScalarJSON.parse "" = inl (ScalarJSON.SyntaxError "Unexpected end of JSON input")
  ∧ getWithTTL ScalarJSON.parse
      (fun _ => Fulfilled ((None, Some ""), (None, VNum (-1))))
      Sample.standalone "k"
    = (Return (Fulfilled (VStr "", VNum (-1))),
       [Exec [GET "MOL-k"; TTL "MOL-k"]])
  ∧ result (get ScalarJSON.parse (fun _ => Fulfilled (Some ""))
                Sample.standalone "k")
    = Return (Fulfilled VNull).
Proof. repeat split. Qed.

(** * Properties of the locks *)

Section LockProperties.

Variable quorum : redlock → string → nat → bool.
Variable default_retryCount : nat.



(** What [init] leaves in the cacher when the redlock package is there. *)
(** What a successful [init] has done. *)
Lemma init_returns (pkgs : packages) (pfx : string) (o : opts) (c : cacher) :
  result (init pkgs pfx o) = Return c →
  has_ioredis pkgs = true ∧
  prefix c = pfx ∧ options_ c = o ∧
  client_ c = match o_cluster o with
              | Some cl => RedisCluster (nodes cl) (options cl)
              | None => Redis (o_redis o)
              end ∧
  if has_redlock pkgs then
    let cs := match o_redlock o with
              | Some r => default [client_ c] (clients r)
              | None => [client_ c]
              end in
    cs ≠ [] ∧
    redlock_ c =
      Some (Redlock cs (match o_redlock o with
                        | Some r => rest r
                        | None => {| retryCount := None; retryDelay := None |}
                        end)) ∧
    redlockNonBlocking c =
      Some (Redlock cs {| retryCount := Some 0; retryDelay := None |})
  else redlock_ c = None ∧ redlockNonBlocking c = None.
Proof.
  unfold init.
  destruct (has_ioredis pkgs); run; [|discriminate].
  destruct (o_cluster o) as [cl|]; run.
  - destruct (truthy (nodes cl)); run; [|discriminate].
    destruct (has_redlock pkgs); run.
    + destruct (o_redlock o) as [[[[|x cs]|] st]|]; run; try discriminate;
        destruct (o_monitor o); run; intros [= <-]; simpl; done.
    + destruct (o_monitor o); run; intros [= <-]; simpl; done.
  - destruct (has_redlock pkgs); run.
    + destruct (o_redlock o) as [[[[|x cs]|] st]|]; run; try discriminate;
        destruct (o_monitor o); run; intros [= <-]; simpl; done.
    + destruct (o_monitor o); run; intros [= <-]; simpl; done.
Qed.



End LockProperties.


(** * Properties of one scan *)

Lemma scan_step_same_target (s : scan) (sig : signal) :
  sc_node (fst (scan_step s sig)) = sc_node s ∧
  sc_pattern (fst (scan_step s sig)) = sc_pattern s.
Proof.
  destruct sig as [keys| | | |]; simpl; auto.
  unfold on_data. destruct (length (default [] keys) =? 0)%nat; auto.
Qed.

Lemma scan_run_same_target (s : scan) (sigs : list signal) :
  sc_node (fst (scan_run s sigs)) = sc_node s ∧
  sc_pattern (fst (scan_run s sigs)) = sc_pattern s.
Proof.
  revert s. induction sigs as [|sig sigs IH]; intros s; simpl; [done|].
  destruct (scan_step s sig) as [s1 t1] eqn:E1.
  destruct (scan_run s1 sigs) as [s2 t2] eqn:E2. simpl.
  specialize (IH s1). rewrite E2 in IH. simpl in IH.
  pose proof (scan_step_same_target s sig) as H. rewrite E1 in H. simpl in H.
  destruct IH as [-> ->]. exact H.
Qed.

Lemma backpressure_step (s : scan) (sig : signal) :
  backpressure s → enabled s sig = true → backpressure (fst (scan_step s sig)).
Proof.
  unfold backpressure. intros [Hlen Hpaused] Hen.
  destruct sig as [keys| | | |]; simpl in *; auto.
  - unfold on_data. destruct (length (default [] keys) =? 0)%nat; simpl; auto.
    destruct (sc_inflight s) as [|b bs]; simpl; [auto with lia|].
    rewrite Hpaused in Hen; [discriminate | done].
  - destruct (sc_inflight s) as [|b bs]; [discriminate|]. simpl in *.
    destruct bs; simpl in *; [|lia]. split; [lia | done].
  - destruct (sc_inflight s) as [|b bs]; [discriminate|]. simpl in *.
    destruct bs; simpl in *; [|lia]. split; [lia | done].
Qed.

Lemma backpressure_run (s : scan) (sigs : list signal) :
  backpressure s → admissible s sigs = true → backpressure (fst (scan_run s sigs)).
Proof.
  revert s. induction sigs as [|sig sigs IH]; intros s Hs Hadm; simpl in *; [done|].
  apply andb_prop in Hadm as [Hen Hadm].
  pose proof (backpressure_step s sig Hs Hen) as H1.
  destruct (scan_step s sig) as [s1 t1]. simpl in *.
  specialize (IH s1 H1 Hadm).
  destruct (scan_run s1 sigs) as [s2 t2]. exact IH.
Qed.

(** Batches without keys leave a scan as it is and cause no effect. *)
Lemma scan_run_empty_batches (s : scan) (sigs : list signal) :
  Forall (fun sig => sig = Data (Some []) ∨ sig = Data None) sigs →
  scan_run s sigs = (s, []).
Proof.
  induction 1 as [|sig sigs [->| ->] _ IH]; simpl; [done| |]; by rewrite IH.
Qed.

Lemma scan_run_app (s : scan) (sigs1 sigs2 : list signal) :
  scan_run s (sigs1 ++ sigs2) =
    let '(s1, t1) := scan_run s sigs1 in
    let '(s2, t2) := scan_run s1 sigs2 in
    (s2, t1 ++ t2).
Proof.
  revert s. induction sigs1 as [|sig sigs1 IH]; intros s; simpl.
  - by destruct (scan_run s sigs2).
  - destruct (scan_step s sig) as [s1 t1]. rewrite IH.
    destruct (scan_run s1 sigs1) as [s2 t2].
    destruct (scan_run s2 sigs2) as [s3 t3]. by rewrite app_assoc.
Qed.

(** C2: along every run of one scan in which the stream emits "data" only
    while it flows and only issued deletes settle: at most one delete is
    unanswered and the stream is paused while it is; a batch with keys is
    answered at once by pausing the stream and deleting exactly that batch;
    when that delete is done the stream is resumed, and nothing else resumes
    it; a batch without keys causes nothing; and a stream that ends after
    batches without keys only fulfils the scan without any delete. *)
Theorem nodeScanDel_backpressure (n : node) (pattern : string)
    (sigs : list signal) :
  let s0 := fst (_nodeScanDel n pattern) in
  admissible s0 sigs = true →
  let s := fst (scan_run s0 sigs) in
  backpressure s ∧
  (∀ keys, keys ≠ [] → enabled s (Data (Some keys)) = true →
     scan_step s (Data (Some keys)) =
       (Scan n pattern false [keys] (sc_promise s),
        [Pause n; NodeDel n keys])) ∧
  (∀ keys, sc_inflight s = [keys] →
     scan_step s DelDone = (Scan n pattern true [] (sc_promise s), [Resume n])) ∧
  (∀ sig x, In (Resume x) (snd (scan_step s sig)) → sig = DelDone) ∧
  scan_step s (Data (Some [])) = (s, []) ∧
  scan_step s (Data None) = (s, []) ∧
  (∀ batches,
     Forall (fun sig => sig = Data (Some []) ∨ sig = Data None) batches →
     scan_run s0 (batches ++ [End]) =
       (Scan n pattern true [] (Fulfilled tt),
        [ConsoleLog "End deleting keys from node"])).
Proof.
  intros s0 Hadm s.
  assert (Hbp : backpressure s).
  { apply backpressure_run; [|done]. split; simpl; [lia | done]. }
  destruct (scan_run_same_target s0 sigs) as [Hn Hp]. fold s in Hn, Hp.
  simpl in Hn, Hp.
  split; [done|]. split; [|split; [|split; [|split; [|split]]]].
  - intros keys Hkeys Hen. simpl in Hen. simpl. unfold on_data. simpl.
    destruct keys as [|k keys]; [done|]. simpl.
    destruct Hbp as [_ Hpaused].
    destruct (sc_inflight s) as [|b bs] eqn:Hin.
    + by rewrite Hn, Hp.
    + rewrite Hpaused in Hen; [discriminate | done].
  - intros keys Hin. simpl. unfold on_del_then. by rewrite Hin, Hn, Hp.
  - intros sig x Hx. destruct sig as [keys| | | |]; simpl in Hx; try done.
    + unfold on_data in Hx.
      destruct (length (default [] keys) =? 0)%nat; simpl in Hx;
        intuition discriminate.
    + intuition discriminate.
    + intuition discriminate.
  - reflexivity.
  - reflexivity.
  - intros batches Hb. rewrite scan_run_app.
    rewrite (scan_run_empty_batches s0 batches Hb). reflexivity.
Qed.

Lemma nodeScanDel_backpressure_witness :
  backpressure
    (fst (scan_run (fst (_nodeScanDel (Member "10.0.0.1:7000") "MOL-user:*"))
            [Data (Some ["MOL-user:1"; "MOL-user:2"]); DelDone;
             Data (Some []); Data (Some ["MOL-user:3"])])).
Proof.
  apply (nodeScanDel_backpressure (Member "10.0.0.1:7000") "MOL-user:*"
           [Data (Some ["MOL-user:1"; "MOL-user:2"]); DelDone;
            Data (Some []); Data (Some ["MOL-user:3"])]).
  reflexivity.
Defined.

(** * Properties of one pattern on a cluster *)

(** A promise never changes once it is settled. *)
Lemma scan_step_settled (s : scan) (sig : signal) :
  sc_promise s ≠ Pending → sc_promise (fst (scan_step s sig)) = sc_promise s.
Proof.
  intros H. destruct sig as [keys| | | |]; simpl; try done.
  - unfold on_data. by destruct (length (default [] keys) =? 0)%nat.
  - by destruct (sc_promise s).
  - by destruct (sc_promise s).
  - by destruct (sc_promise s).
Qed.

Lemma scan_run_settled (s : scan) (sigs : list signal) :
  sc_promise s ≠ Pending → sc_promise (fst (scan_run s sigs)) = sc_promise s.
Proof.
  revert s. induction sigs as [|sig sigs IH]; intros s H; simpl; [done|].
  pose proof (scan_step_settled s sig H) as H1.
  destruct (scan_step s sig) as [s1 t1]. simpl in H1.
  specialize (IH s1). destruct (scan_run s1 sigs) as [s2 t2]. simpl in *.
  rewrite IH; [done | by rewrite H1].
Qed.

(** The promise of a scan tells how its signals went. *)
Lemma scan_run_promise (s : scan) (sigs : list signal) :
  sc_promise s = Pending →
  (sc_promise (fst (scan_run s sigs)) = Fulfilled tt ↔ ends_clean sigs = true) ∧
  (is_rejected (sc_promise (fst (scan_run s sigs))) = true ↔ fails sigs = true).
Proof.
  revert s. induction sigs as [|sig sigs IH]; intros s Hs; simpl.
  - rewrite Hs. simpl. split; split; discriminate.
  - destruct (scan_step s sig) as [s1 t1] eqn:E1.
    destruct (scan_run s1 sigs) as [s2 t2] eqn:E2. simpl.
    assert (Hs2 : s2 = fst (scan_run s1 sigs)) by (by rewrite E2).
    assert (Hs1 : s1 = fst (scan_step s sig)) by (by rewrite E1).
    destruct sig as [keys|e| | |e]; simpl in Hs1.
    + assert (sc_promise s1 = Pending) as H1.
      { rewrite Hs1. unfold on_data.
        by destruct (length (default [] keys) =? 0)%nat. }
      rewrite Hs2. by apply IH.
    + rewrite Hs2, scan_run_settled; rewrite Hs1; simpl; rewrite Hs; simpl;
        [|done]. split; split; done.
    + rewrite Hs2, scan_run_settled; rewrite Hs1; simpl; rewrite Hs; simpl;
        [|done]. split; split; done.
    + rewrite Hs2. apply IH. by rewrite Hs1.
    + rewrite Hs2, scan_run_settled; rewrite Hs1; simpl; rewrite Hs; simpl;
        [|done]. split; split; done.
Qed.

Lemma first_rejection_spec (ps : list (promise unit)) :
  match first_rejection ps with
  | Some e => ∃ k, ps !! k = Some (Rejected e)
  | None => ∀ k p, ps !! k = Some p → is_rejected p = false
  end.
Proof.
  induction ps as [|p ps IH]; simpl; [done|].
  destruct p as [|a|e].
  - destruct (first_rejection ps) as [e|].
    + destruct IH as [k Hk]. by exists (S k).
    + intros [|k] p; simpl; [by intros [= <-] | apply IH].
  - destruct (first_rejection ps) as [e|].
    + destruct IH as [k Hk]. by exists (S k).
    + intros [|k] p; simpl; [by intros [= <-] | apply IH].
  - by exists 0.
Qed.

Lemma forallb_fulfilled (ps : list (promise unit)) :
  forallb is_fulfilled ps = true ↔ ∀ k p, ps !! k = Some p → is_fulfilled p = true.
Proof.
  rewrite forallb_forall. split.
  - intros H k p Hk. apply H. apply list_elem_of_In.
    apply list_elem_of_lookup. eauto.
  - intros H p Hp. apply list_elem_of_In, list_elem_of_lookup in Hp as [k Hk].
    eauto.
Qed.

Lemma Promise_all_settles (ps : list (promise unit)) :
  all_settles ps (Promise_all ps).
Proof.
  unfold all_settles, Promise_all.
  pose proof (first_rejection_spec ps) as Hfr.
  destruct (first_rejection ps) as [e|].
  - destruct Hfr as [k Hk]. split; split; try done.
    + intros H. by specialize (H k _ Hk).
    + intros _. by exists k, (Rejected e).
  - destruct (forallb is_fulfilled ps) eqn:Hall.
    + split; split; try done.
      * intros _. by apply forallb_fulfilled.
      * intros (k & p & Hk & Hp). by rewrite (Hfr k p Hk) in Hp.
    + split; split; try done.
      * intros H. pose proof (proj2 (forallb_fulfilled _) H). congruence.
      * intros (k & p & Hk & Hp). by rewrite (Hfr k p Hk) in Hp.
Qed.

Lemma all_notify_settles (ps : list (promise unit)) (all p' : promise unit)
    (k : nat) :
  ps !! k = Some Pending →
  all_settles ps all →
  all_settles (<[k := p']> ps) (all_notify all (<[k := p']> ps) p').
Proof.
  intros Hk [HF HR].
  assert (Hlt : k < length ps) by (by eapply lookup_lt_Some).
  assert (HnF : all ≠ Fulfilled tt).
  { intros H. pose proof (proj1 HF H k _ Hk) as H'. done. }
  assert (Hother : ∀ i p, i ≠ k → <[k := p']> ps !! i = Some p ↔ ps !! i = Some p).
  { intros i p Hi. by rewrite list_lookup_insert_ne. }
  assert (Hself : <[k := p']> ps !! k = Some p') by (by apply list_lookup_insert_eq).
  destruct p' as [|[]|e]; simpl.
  - rewrite list_insert_id; [by split | done].
  - destruct (forallb is_fulfilled (<[k := Fulfilled ()]> ps)) eqn:Hall.
    + pose proof (proj1 (forallb_fulfilled _) Hall) as Hall'.
      clear Hall. rename Hall' into Hall.
      assert (all = Pending) as ->.
      { destruct all as [|[]|e]; [done | done |].
        destruct HR as [HR _]. destruct (HR eq_refl) as (i & p & Hi & Hp).
        destruct (decide (i = k)) as [->|Hne];
          [rewrite Hk in Hi; by simplify_eq|].
        pose proof (Hall i p (proj2 (Hother i p Hne) Hi)). by destruct p. }
      simpl. split; split; try done.
      intros (i & p & Hi & Hp). pose proof (Hall i p Hi). by destruct p.
    + split; split.
      * done.
      * intros H. pose proof (proj2 (forallb_fulfilled _) H). congruence.
      * intros H. destruct (proj1 HR H) as (i & p & Hi & Hp).
        assert (i ≠ k) by (intros ->; rewrite Hk in Hi; by simplify_eq).
        exists i, p. split; [|done]. by apply Hother.
      * intros (i & p & Hi & Hp). apply (proj2 HR).
        destruct (decide (i = k)) as [->|Hne]; [rewrite Hself in Hi; by simplify_eq|].
        exists i, p. split; [|done]. by apply (Hother i p Hne).
  - split; split.
    + by destruct all.
    + intros H. by specialize (H k _ Hself).
    + intros _. by exists k, (Rejected e).
    + intros _. by destruct all as [|[]|].
Qed.

(** A job over all nodes stays one, with as many scans, each of which has
    seen exactly the signals addressed to it; and its promise keeps
    agreeing with the promises of its scans. *)
Lemma job_run_all (ss : list scan) (all : promise unit)
    (sigs : list (nat * signal)) :
  all_settles (map sc_promise ss) all →
  ∃ ss' all' t,
    job_run (OnAll ss all) sigs = (OnAll ss' all', t) ∧
    length ss' = length ss ∧
    (∀ k s, ss !! k = Some s →
            ss' !! k = Some (fst (scan_run s (signals_to k sigs)))) ∧
    all_settles (map sc_promise ss') all'.
Proof.
  revert ss all. induction sigs as [|[k sig] sigs IH]; intros ss all Hinv.
  - exists ss, all, []. simpl. eauto.
  - simpl. destruct (ss !! k) as [s|] eqn:Hk.
    + destruct (scan_step s sig) as [s1 t1] eqn:E1.
      set (ss1 := <[k := s1]> ss).
      set (all1 := match sc_promise s with
                   | Pending => all_notify all (map sc_promise ss1) (sc_promise s1)
                   | _ => all
                   end).
      assert (Hinv1 : all_settles (map sc_promise ss1) all1).
      { subst ss1 all1. rewrite list_fmap_insert.
        destruct (sc_promise s) eqn:Hp.
        - apply all_notify_settles; [|done].
          by rewrite list_lookup_fmap, Hk; simpl; rewrite Hp.
        - assert (sc_promise s1 = sc_promise s) as ->.
          { replace s1 with (fst (scan_step s sig)) by (by rewrite E1).
            apply scan_step_settled. by rewrite Hp. }
          rewrite list_insert_id; [done|].
          by rewrite list_lookup_fmap, Hk.
        - assert (sc_promise s1 = sc_promise s) as ->.
          { replace s1 with (fst (scan_step s sig)) by (by rewrite E1).
            apply scan_step_settled. by rewrite Hp. }
          rewrite list_insert_id; [done|].
          by rewrite list_lookup_fmap, Hk. }
      destruct (IH ss1 all1 Hinv1) as (ss' & all' & t & Hrun & Hlen & Hscans & Hinv').
      rewrite Hrun. exists ss', all', (t1 ++ t).
      split; [done|]. split; [by rewrite Hlen; apply length_insert|].
      split; [|done].
      intros i s0 Hi. destruct (decide (k = i)) as [->|Hne].
      * assert (s0 = s) as -> by congruence.
        simpl. rewrite E1.
        rewrite (Hscans i s1).
        -- by destruct (scan_run s1 (signals_to i sigs)).
        -- apply list_lookup_insert_eq. by eapply lookup_lt_Some.
      * apply Hscans.
        subst ss1. by rewrite list_lookup_insert_ne.
    + destruct (IH ss all Hinv) as (ss' & all' & t & Hrun & Hlen & Hscans & Hinv').
      rewrite Hrun. exists ss', all', t. split; [done|]. split; [done|].
      split; [|done].
      intros i s0 Hi. destruct (decide (k = i)) as [->|Hne]; [congruence|].
      auto.
Qed.

Section ClusterProperties.

Variable nodes_of : client → list node.
Variable this : cacher.

Lemma clusterScanDel_start (pattern : string) :
  _clusterScanDel nodes_of this pattern =
    (OnAll (map (fun n => Scan n pattern true [] Pending) (nodes_of (client_ this)))
           (Promise_all (map (fun _ => Pending) (nodes_of (client_ this)))),
     map (fun n => ScanStream n pattern 100) (nodes_of (client_ this))).
Proof.
  unfold _clusterScanDel. generalize (nodes_of (client_ this)) as ns.
  intros ns. rewrite !map_map. simpl. f_equal.
  induction ns as [|n ns IH]; simpl; [done|]. by rewrite IH.
Qed.

Lemma is_rejected_spec (p : promise unit) :
  is_rejected p = true ↔ ∃ e, p = Rejected e.
Proof.
  destruct p as [|a|e]; simpl; split; try done.
  - by intros [e [=]].
  - by intros [e [=]].
  - eauto.
Qed.


End ClusterProperties.

(** * Properties of [clean] *)

Lemma scan_step_opens_nothing (s : scan) (sig : signal) (e : effect) :
  In e (snd (scan_step s sig)) → is_ScanStream e = false.
Proof.
  destruct sig as [keys| | | |]; simpl; try (intros [<-|[]]; done); try done.
  unfold on_data. destruct (length (default [] keys) =? 0)%nat; simpl; [done|].
  intros [<-|[<-|[]]]; done.
Qed.

Lemma job_step_opens_nothing (j : job) (k : nat) (sig : signal) (e : effect) :
  In e (snd (job_step j k sig)) → is_ScanStream e = false.
Proof.
  destruct j as [s|ss all]; simpl.
  - destruct k; [|done].
    pose proof (scan_step_opens_nothing s sig e) as H.
    by destruct (scan_step s sig).
  - destruct (ss !! k) as [s|]; [|done].
    pose proof (scan_step_opens_nothing s sig e) as H.
    by destruct (scan_step s sig).
Qed.


Lemma collapse_two (c c' : ascii) (s : string) :
  collapse (String c (String c' s)) =
    if (Ascii.eqb c "*" && Ascii.eqb c' "*")%bool then String "*" (collapse s)
    else String c (collapse (String c' s)).
Proof. simpl. by destruct (Ascii.eqb c "*"), (Ascii.eqb c' "*"). Qed.






Section CleanProperties.

Variable nodes_of : client → list node.
Variable this : cacher.


Lemma scanDel_opens (element : string) (e : effect) :
  In e (snd (_scanDel nodes_of this element)) →
  ∃ n, e = ScanStream n element 100.
Proof.
  unfold _scanDel. destruct (instanceof_Cluster (client_ this)).
  - rewrite clusterScanDel_start. simpl. rewrite in_map_iff.
    intros (n & <- & _). eauto.
  - simpl. intros [<-|[]]. eauto.
Qed.


Lemma flush_opens (c : chain) (e : effect) :
  In e (snd (flush nodes_of this c)) →
  ∃ n el, e = ScanStream n el 100 ∧ In el (chain_elements c).
Proof.
  induction c as [|c IH el r]; simpl; [done|].
  destruct (flush nodes_of this c) as [c' t0]. simpl in IH.
  assert (Hin : In e t0 →
            ∃ n el', e = ScanStream n el' 100 ∧ In el' (chain_elements c ++ [el])).
  { intros H. destruct (IH H) as (n & el' & -> & Hel).
    exists n, el'. split; [done|]. apply in_or_app. auto. }
  destruct r as [|j|e']; simpl; [|done..].
  destruct (chain_promise c') as [|a|e']; simpl; [done| |done].
  pose proof (scanDel_opens el e) as Hscan.
  destruct (_scanDel nodes_of this el) as [j t]. simpl in *.
  intros H. apply in_app_or in H as [H|H]; [auto|].
  destruct (Hscan H) as [n ->]. exists n, el. split; [done|].
  apply in_or_app. simpl. auto.
Qed.


Lemma deliver_opens_nothing (c : chain) (i k : nat) (sig : signal) (e : effect) :
  In e (snd (deliver c i k sig)) → is_ScanStream e = false.
Proof.
  induction c as [|c IH el r]; simpl; [done|].
  destruct (decide (i = depth c)) as [Heq|Hne].
  - destruct r as [|j|e']; simpl; [done| |done].
    pose proof (job_step_opens_nothing j k sig e) as H.
    by destruct (job_step j k sig).
  - by destruct (deliver c i k sig) as [c' t].
Qed.

Lemma on_settled_opens_nothing (p : promise unit) (c : chain) (e : effect) :
  In e (snd (on_settled p c)) → is_ScanStream e = false.
Proof.
  unfold on_settled. destruct p; simpl; [|done..].
  destruct (chain_promise c); simpl; [done|done|]. by intros [<-|[]].
Qed.




(** C10: [clean([])] returns a promise that is already fulfilled; it
    opens no stream and issues no delete, and no signal of a node changes
    that: the only effect ever is its debug line. *)
Theorem clean_empty (evs : list event) :
  clean_then nodes_of this (Some (inr [])) evs =
    (Cleaning PromiseResolve (Fulfilled tt), [Log Debug "CLEAN "]).
Proof.
  unfold clean_then. simpl.
  assert (H : clean_run nodes_of this (Cleaning PromiseResolve (Fulfilled tt)) evs
              = (Cleaning PromiseResolve (Fulfilled tt), [])).
  { induction evs as [|ev evs IH]; simpl; [done|]. by rewrite IH. }
  by rewrite H.
Qed.

End CleanProperties.

(** ** The order of the patterns *)

Lemma all_notify_settled (all : promise unit) (ps : list (promise unit))
    (p : promise unit) :
  all ≠ Pending → all_notify all ps p = all.
Proof.
  intros H. destruct p as [|a|e]; simpl; [done| |by destruct all].
  destruct (forallb is_fulfilled ps); [by destruct all | done].
Qed.

Lemma job_step_settled (j : job) (k : nat) (sig : signal) :
  job_promise j ≠ Pending → job_promise (fst (job_step j k sig)) = job_promise j.
Proof.
  destruct j as [s|ss all]; simpl; intros H.
  - destruct k; [|done].
    pose proof (scan_step_settled s sig H) as H'.
    by destruct (scan_step s sig).
  - destruct (ss !! k) as [s|]; [|done].
    destruct (scan_step s sig) as [s' t]. simpl.
    destruct (sc_promise s); [|done..]. by apply all_notify_settled.
Qed.

(** X10: where the rejection of a scan comes from. A scan is only ever
    rejected with an error its stream reported, passed on as it came, or
    with the error of a failed delete, to which the pattern of the scan has
    been attached. *)
Lemma scan_rejection_origin (s : scan) (sigs : list signal) (e : err) :
  sc_promise s = Pending →
  sc_promise (fst (scan_run s sigs)) = Rejected e →
  In (StreamError e) sigs ∨
  ∃ e', In (DelFailed e') sigs ∧ e = set_pattern e' (sc_pattern s).
Proof.
  revert s. induction sigs as [|sig sigs IH]; intros s Hs; simpl.
  - rewrite Hs. discriminate.
  - destruct (scan_step s sig) as [s1 t1] eqn:E1.
    destruct (scan_run s1 sigs) as [s2 t2] eqn:E2. simpl.
    assert (Hs2 : s2 = fst (scan_run s1 sigs)) by (by rewrite E2).
    assert (Hs1 : s1 = fst (scan_step s sig)) by (by rewrite E1).
    assert (Hpat : sc_pattern s1 = sc_pattern s).
    { rewrite Hs1. apply scan_step_same_target. }
    assert (Hrec : sc_promise s1 = Pending → sc_promise s2 = Rejected e →
              In (StreamError e) (sig :: sigs) ∨
              ∃ e', In (DelFailed e') (sig :: sigs) ∧ e = set_pattern e' (sc_pattern s)).
    { intros H1 H2. rewrite Hs2 in H2.
      destruct (IH s1 H1 H2) as [H|(e' & H & He)]; [left; by right|].
      right. exists e'. split; [by right | congruence]. }
    destruct sig as [keys|e0| | |e0]; simpl in Hs1.
    + apply Hrec. rewrite Hs1. unfold on_data.
      by destruct (length (default [] keys) =? 0)%nat.
    + rewrite Hs2, scan_run_settled; rewrite Hs1; simpl; rewrite Hs; simpl;
        [|done]. intros [= ->]. left. by left.
    + rewrite Hs2, scan_run_settled; rewrite Hs1; simpl; rewrite Hs; simpl; done.
    + apply Hrec. by rewrite Hs1.
    + rewrite Hs2, scan_run_settled; rewrite Hs1; simpl; rewrite Hs; simpl;
        [|done]. intros [= <-]. right. exists e0. split; [by left | done].
Qed.

Section Sequencing.

Variable nodes_of : client → list node.
Variable this : cacher.

Lemma deliver_settled (c : chain) (i k : nat) (sig : signal) :
  chain_promise c ≠ Pending →
  chain_promise (fst (deliver c i k sig)) = chain_promise c.
Proof.
  destruct c as [|c el r]; simpl; [done|].
  destruct (decide (i = depth c)) as [Heq|Hne].
  - destruct r as [|j|e]; simpl; [done| |done].
    intros H. pose proof (job_step_settled j k sig H) as H'.
    by destruct (job_step j k sig).
  - by destruct (deliver c i k sig).
Qed.

Lemma deliver_all_done (c : chain) (i k : nat) (sig : signal) :
  all_done c → all_done (fst (deliver c i k sig)).
Proof.
  induction 1 as [|c el j Hc IH Hj]; simpl; [constructor|].
  destruct (decide (i = depth c)) as [Heq|Hne].
  - pose proof (job_step_settled j k sig) as H'.
    destruct (job_step j k sig) as [j' t]. simpl in *.
    constructor; [done|]. rewrite H'; [done | by rewrite Hj].
  - destruct (deliver c i k sig) as [c' t]. simpl in *. by constructor.
Qed.

Lemma deliver_staged (c : chain) (i k : nat) (sig : signal) :
  staged c → staged (fst (deliver c i k sig)).
Proof.
  induction 1 as [c Hc|c el j Hc|c el Hc IH|c el e Hc IH He].
  - apply staged_done. by apply deliver_all_done.
  - simpl. destruct (decide (i = depth c)) as [Heq|Hne].
    + destruct (job_step j k sig) as [j' t]. simpl. by apply staged_last.
    + pose proof (deliver_all_done c i k sig Hc) as H.
      destruct (deliver c i k sig) as [c' t]. simpl in *. by apply staged_last.
  - simpl. destruct (decide (i = depth c)) as [Heq|Hne].
    + simpl. by apply staged_waiting.
    + destruct (deliver c i k sig) as [c' t]. simpl in *. by apply staged_waiting.
  - simpl. destruct (decide (i = depth c)) as [Heq|Hne].
    + simpl. by apply staged_skipped.
    + pose proof (deliver_settled c i k sig) as H.
      destruct (deliver c i k sig) as [c' t]. simpl in *.
      apply staged_skipped; [done|]. rewrite H; [done | by rewrite He].
Qed.

Lemma flush_all_done (c : chain) :
  all_done c → flush nodes_of this c = (c, []).
Proof. induction 1 as [|c el j Hc IH Hj]; simpl; [done|]. by rewrite IH. Qed.

Lemma flush_settled (c : chain) :
  chain_promise c ≠ Pending →
  chain_promise (fst (flush nodes_of this c)) = chain_promise c.
Proof.
  destruct c as [|c el r]; simpl; [done|].
  destruct (flush nodes_of this c) as [c' t]. by destruct r.
Qed.

Lemma sequential_fulfilled (c : chain) :
  sequential c → chain_promise c = Fulfilled tt → all_done c.
Proof. destruct 1; simpl; done. Qed.

Lemma sequential_staged (c : chain) : sequential c → staged c.
Proof.
  induction 1; [by apply staged_done | by apply staged_last
                | by apply staged_waiting | by apply staged_skipped].
Qed.

Lemma started_sequential (c : chain) (el : string) (j : job) :
  all_done c → sequential (Then c el (Started j)).
Proof.
  intros Hc. destruct (job_promise j) as [|[]|e] eqn:Hj.
  - apply seq_last; [done | by rewrite Hj].
  - apply seq_done. by constructor.
  - apply seq_last; [done | by rewrite Hj].
Qed.

Lemma flush_sequential (c : chain) :
  staged c → sequential (fst (flush nodes_of this c)).
Proof.
  induction 1 as [c Hc|c el j Hc|c el Hc IH|c el e Hc IH He].
  - rewrite flush_all_done by done. by apply seq_done.
  - simpl. rewrite flush_all_done by done. simpl. by apply started_sequential.
  - simpl. destruct (flush nodes_of this c) as [c' t]. simpl in IH.
    destruct (chain_promise c') as [|[]|e] eqn:Hp; simpl.
    + by apply seq_waiting.
    + destruct (_scanDel nodes_of this el) as [j t']. simpl.
      apply started_sequential. by apply sequential_fulfilled.
    + by apply seq_skipped.
  - simpl. pose proof (flush_settled c) as H.
    destruct (flush nodes_of this c) as [c' t]. simpl in *.
    apply seq_skipped; [done|]. rewrite H; [done | by rewrite He].
Qed.

Lemma sequentialPromises_staged (elements : list string) :
  staged (_sequentialPromises elements).
Proof.
  unfold _sequentialPromises.
  assert (H : ∀ c, staged c →
              staged (fold_left (fun chain element => Then chain element Waiting)
                                elements c)).
  { induction elements as [|el els IH]; intros c Hc; simpl; [done|].
    apply IH. by apply staged_waiting. }
  apply H, staged_done, done_resolve.
Qed.

Lemma on_settled_follows (p : promise unit) (c c' : chain) :
  p = chain_promise c →
  (chain_promise c ≠ Pending → chain_promise c' = chain_promise c) →
  fst (on_settled p c') = chain_promise c'.
Proof.
  intros -> H. unfold on_settled.
  destruct (chain_promise c) as [|a|e] eqn:Hp.
  - by destruct (chain_promise c') as [|[]|e].
  - simpl. rewrite H; done.
  - simpl. rewrite H; done.
Qed.

(** One pattern at a time, whatever the nodes signal and in whatever
    order: after [clean] and any signals the chain is [sequential], and
    the promise [clean] returned is the promise of the chain. *)
Lemma clean_sequential (match_ : option (string + list string))
    (evs : list event) :
  let st := fst (clean_then nodes_of this match_ evs) in
  sequential (cl_chain st) ∧ cl_promise st = chain_promise (cl_chain st).
Proof.
  simpl. unfold clean_then, clean.
  set (els := map _ _).
  pose proof (flush_sequential _ (sequentialPromises_staged els)) as Hseq.
  destruct (flush nodes_of this (_sequentialPromises els)) as [c t].
  pose proof (on_settled_follows Pending (Then PromiseResolve "" Waiting) c
                eq_refl ltac:(done)) as Hp.
  destruct (on_settled Pending c) as [p t']. simpl in Hseq, Hp.
  assert (H : ∀ st, sequential (cl_chain st) →
              cl_promise st = chain_promise (cl_chain st) →
              let st' := fst (clean_run nodes_of this st evs) in
              sequential (cl_chain st') ∧ cl_promise st' = chain_promise (cl_chain st')).
  { clear. induction evs as [|ev evs IH]; intros st Hseq Hp; simpl; [done|].
    unfold clean_step.
    pose proof (deliver_staged (cl_chain st) (ev_pattern ev) (ev_node ev)
                  (ev_signal ev) (sequential_staged _ Hseq)) as H1.
    pose proof (deliver_settled (cl_chain st) (ev_pattern ev) (ev_node ev)
                  (ev_signal ev)) as H1'.
    destruct (deliver (cl_chain st) (ev_pattern ev) (ev_node ev) (ev_signal ev))
      as [c1 t1]. simpl in H1, H1'.
    pose proof (flush_sequential c1 H1) as H2.
    pose proof (flush_settled c1) as H2'.
    destruct (flush nodes_of this c1) as [c2 t2]. simpl in H2, H2'.
    pose proof (on_settled_follows (cl_promise st) (cl_chain st) c2 Hp) as H3.
    destruct (on_settled (cl_promise st) c2) as [p t3]. simpl in H3.
    specialize (IH (Cleaning c2 p) H2).
    destruct (clean_run nodes_of this (Cleaning c2 p) evs) as [st2 t4].
    simpl in *. apply IH. apply H3.
    intros Hne. rewrite H2', H1'; [done | done | by rewrite H1']. }
  specialize (H (Cleaning c p) Hseq Hp).
  by destruct (clean_run nodes_of this (Cleaning c p) evs).
Qed.

End Sequencing.

(** ** One pattern on a cluster, end to end *)








Section ClusterClean.

Variable nodes_of : client → list node.
Variable this : cacher.






End ClusterClean.


(** C3 on a standalone client whose key stream reports an error while the
    first of two patterns is scanned: the second pattern is never started
    and [clean] is rejected with that error, but the error carries no
    pattern, and the line [clean] logs names the pattern "undefined". Had a
    delete failed instead, the error would name the pattern. *)
Lemma clean_stream_error_without_pattern :
  clean_then Sample.pool Sample.standalone (Some (inr ["user:*"; "order:*"]))
    [Event 0 0 (StreamError Sample.ECONNRESET)]
  = (Cleaning
       (Then (Then PromiseResolve "MOL-user:*"
                (Started (OnNode (Scan (Standalone (client_ Sample.standalone))
                                       "MOL-user:*" true []
                                       (Rejected Sample.ECONNRESET)))))
             "MOL-order:*" (Skipped Sample.ECONNRESET))
       (Rejected Sample.ECONNRESET),
     [Log Debug "CLEAN user:*,order:*";
      ScanStream (Standalone (client_ Sample.standalone)) "MOL-user:*" 100;
      ConsoleError "Error occured while deleting keys from node";
      LogError "Redis 'scanDel' error. Pattern: undefined" Sample.ECONNRESET])
  ∧ e_pattern Sample.ECONNRESET = None
  ∧ cl_promise
      (fst (clean_then Sample.pool Sample.standalone
              (Some (inr ["user:*"; "order:*"]))
              [Event 0 0 (Data (Some ["MOL-user:1"]));
               Event 0 0 (DelFailed Sample.ECONNRESET)]))
    = Rejected (set_pattern Sample.ECONNRESET "MOL-user:*").
Proof. repeat split. Qed.

(** * Further properties of the facade *)

Section FacadeComposition.

Variable JSON_parse : string → err + value.
Variable JSON_stringify : value → value.
Variable reply_get : string → promise (option string).
Variable reply_call : command → promise value.
Variable reply_get_ttl :
  string → promise ((option err * option string) * (option err * value)).
Variable this : cacher.

(** X1: [del] prefixes every target and sends them in one DEL, also when
    the array is empty; what the store answers is passed on; when the store
    rejects, the error is logged with the prefixed keys and the call is
    rejected with that same error; a key and the one-element array of it
    are the same call. *)
Theorem del_batched (targets : string + list string) :
  let keys := map (fun k => prefix this +:+ k)
                  (match targets with inl k => [k] | inr ks => ks end) in
  let m := del reply_call this targets in
  round_trips (trace m) = [Call (DEL keys)] ∧
  (∀ e, reply_call (DEL keys) = Rejected e →
        m = (Return (Rejected e),
             [Log Debug ("DELETE " +:+ join "," keys); Call (DEL keys);
              LogError ("Redis 'del' error. Key: " +:+ join "," keys) e])) ∧
  (∀ p, reply_call (DEL keys) = p → is_rejected p = false →
        m = (Return p,
             [Log Debug ("DELETE " +:+ join "," keys); Call (DEL keys)])) ∧
  (∀ k, targets = inl k → m = del reply_call this (inr [k])).
Proof.
  intros keys m. subst m.
  split; [|split; [|split]].
  - unfold del, client_call. fold keys. run.
    destruct (reply_call (DEL keys)); simpl; done.
  - intros e Hr. unfold del, client_call. fold keys. run. by rewrite Hr.
  - intros p Hr Hp. unfold del, client_call. fold keys. run. rewrite Hr.
    destruct p; simpl; done.
  - intros k ->. reflexivity.
Qed.

(** X2: whatever the store answers and whatever [JSON.parse] does, each
    of [get], [getWithTTL], [del] and [close] makes exactly one round trip,
    and the ones that take a key address [prefix + key]: [get] sends one
    GET and no write, [getWithTTL] one pipeline of GET and TTL, [del] one
    DEL, [close] one QUIT. *)
Theorem facade_round_trips (key : string) :
  let k := prefix this +:+ key in
  round_trips (trace (get JSON_parse reply_get this key)) = [Call (GET k)] ∧
  round_trips (trace (getWithTTL JSON_parse reply_get_ttl this key))
    = [Exec [GET k; TTL k]] ∧
  round_trips (trace (del reply_call this (inl key))) = [Call (DEL [k])] ∧
  round_trips (trace (close reply_call)) = [Call QUIT].
Proof.
  intros k. subst k. split; [|split; [|split]].
  - unfold get, client_get. run.
    destruct (reply_get (prefix this +:+ key)) as [|d|e]; simpl; try done.
    destruct (found d); simpl; [|done].
    destruct (JSON_parse (text d)); simpl; done.
  - unfold getWithTTL. run.
    destruct (reply_get_ttl (prefix this +:+ key)) as [|[[err0 d] [err1 t]]|e];
      simpl; try done.
    destruct err0, err1; simpl; try done.
    destruct (found d); simpl; [|done].
    destruct (JSON_parse (text d)); simpl; done.
  - unfold del, client_call. run.
    destruct (reply_call (DEL [prefix this +:+ key])); simpl; done.
  - reflexivity.
Qed.

(** X3: [get] reads back what [set] wrote. When [JSON.stringify] returns
    for the value a non-empty text that parses back to it, [set] logs its
    debug line and sends exactly one command, a SET or a SETEX that stores
    this text under [prefix + key], and returns the store's promise for
    it; and a [get] of the same key to which the store answers that text
    is fulfilled with the value and logs no error. *)
Theorem set_then_get (key : string) (v ttl : value) (s : string) :
  JSON_stringify v = VStr s →
  s ≠ "" →
  JSON_parse s = inr v →
  (∃ c, set JSON_stringify reply_call this key v ttl =
          (Return (reply_call c), [Log Debug ("SET " +:+ key); Call c]) ∧
        written c = Some (prefix this +:+ key, VStr s)) ∧
  (reply_get (prefix this +:+ key) = Fulfilled (Some s) →
   get JSON_parse reply_get this key =
     (Return (Fulfilled v),
      [Log Debug ("GET " +:+ key); Call (GET (prefix this +:+ key));
       Log Debug ("FOUND " +:+ key)])).
Proof.
  intros Hs Hne Hp. split.
  - unfold set, client_call. run. rewrite Hs.
    destruct (truthy (if nullish ttl then o_ttl (options_ this) else ttl));
      simpl; eexists; split; reflexivity.
  - intros Hr. unfold get, client_get. run. rewrite Hr. simpl.
    assert (Hf : found (Some s) = true).
    { unfold found. simpl. destruct (String.eqb_spec s ""); [done | done]. }
    rewrite Hf. run. by rewrite Hp.
Qed.

(** X4: on the same stored reply, [getWithTTL] hands out the value that
    [get] hands out, beside the TTL, unless the reply is the empty string:
    for a missing key both give [null], for a non-empty text both give the
    parsed value, or [null] when it does not parse. *)
Theorem getWithTTL_matches_get (key : string) (d : option string) (ttl : value) :
  d ≠ Some "" →
  reply_get (prefix this +:+ key) = Fulfilled d →
  reply_get_ttl (prefix this +:+ key) = Fulfilled ((None, d), (None, ttl)) →
  ∃ v, result (get JSON_parse reply_get this key) = Return (Fulfilled v) ∧
       result (getWithTTL JSON_parse reply_get_ttl this key)
         = Return (Fulfilled (v, ttl)).
Proof.
  intros Hd Hg Hp. unfold get, getWithTTL, client_get. run.
  rewrite Hg, Hp. simpl.
  destruct d as [s|]; simpl.
  - unfold found. simpl. destruct (String.eqb_spec s "") as [->|Hne];
      [done|]. simpl. run.
    destruct (JSON_parse s); simpl; eauto.
  - unfold found. simpl. eauto.
Qed.

(** X5: [getWithTTL] under errors. When the GET of the pipeline carries an
    error the call is rejected with it, whatever the TTL carries, so with
    two errors the one of GET wins; an error of TTL alone rejects with
    that one; a pipeline that fails as a whole rejects with its error. In
    all three cases nothing is parsed or logged. *)
Theorem getWithTTL_first_error_wins (key : string) :
  let k := prefix this +:+ key in
  let m := getWithTTL JSON_parse reply_get_ttl this key in
  (∀ e0 d err1 ttl,
     reply_get_ttl k = Fulfilled ((Some e0, d), (err1, ttl)) →
     m = (Return (Rejected e0), [Exec [GET k; TTL k]])) ∧
  (∀ e1 d ttl,
     reply_get_ttl k = Fulfilled ((None, d), (Some e1, ttl)) →
     m = (Return (Rejected e1), [Exec [GET k; TTL k]])) ∧
  (∀ e, reply_get_ttl k = Rejected e →
        m = (Return (Rejected e), [Exec [GET k; TTL k]])).
Proof.
  intros k m. subst k m. unfold getWithTTL. run.
  repeat split.
  - intros e0 d err1 ttl ->. reflexivity.
  - intros e1 d ttl ->. reflexivity.
  - intros e ->. reflexivity.
Qed.

(** X6: an error of the store reaches the caller unchanged. When the store
    rejects the round trip, [get], [set], [del] and [close] are rejected
    with the store's error; nothing is parsed, and only [del] adds a line
    to the log. *)
Theorem store_errors_propagate (key : string) (data ttl : value) (e : err) :
  (reply_get (prefix this +:+ key) = Rejected e →
   get JSON_parse reply_get this key =
     (Return (Rejected e),
      [Log Debug ("GET " +:+ key); Call (GET (prefix this +:+ key))])) ∧
  ((∀ c, reply_call c = Rejected e) →
   result (set JSON_stringify reply_call this key data ttl) = Return (Rejected e) ∧
   result (del reply_call this (inl key)) = Return (Rejected e) ∧
   result (close reply_call) = Return (Rejected e)).
Proof.
  split.
  - intros Hr. unfold get, client_get. run. by rewrite Hr.
  - intros Hr. unfold set, del, close, client_call. run.
    destruct (truthy (if nullish ttl then o_ttl (options_ this) else ttl));
      simpl; rewrite !Hr; simpl; done.
Qed.

End FacadeComposition.

Lemma set_then_get_witness :
  (∃ c, set ScalarJSON.stringify (fun _ => Fulfilled (VStr "OK"))
            Sample.standalone "answer" (VNum 42) VUndefined =
          (Return (Fulfilled (VStr "OK")), [Log Debug "SET answer"; Call c]) ∧
        written c = Some ("MOL-answer", VStr "42")) ∧
  get ScalarJSON.parse (fun _ => Fulfilled (Some "42")) Sample.standalone "answer"
  = (Return (Fulfilled (VNum 42)),
     [Log Debug "GET answer"; Call (GET "MOL-answer"); Log Debug "FOUND answer"]).
Proof.
  destruct (set_then_get ScalarJSON.parse ScalarJSON.stringify
              (fun _ => Fulfilled (Some "42"))
              (fun _ => Fulfilled (VStr "OK"))
              Sample.standalone "answer" (VNum 42) VUndefined "42"
              eq_refl ltac:(discriminate) eq_refl) as [Hset Hget].
  split; [exact Hset | exact (Hget eq_refl)].
Defined.

Lemma getWithTTL_matches_get_witness :
  ∃ v, result (get ScalarJSON.parse (fun _ => Fulfilled (Some "{oops"))
                   Sample.standalone "k") = Return (Fulfilled v) ∧
       result (getWithTTL ScalarJSON.parse
                 (fun _ => Fulfilled ((None, Some "{oops"), (None, VNum 7)))
                 Sample.standalone "k") = Return (Fulfilled (v, VNum 7)).
Proof.
  apply (getWithTTL_matches_get ScalarJSON.parse
           (fun _ => Fulfilled (Some "{oops"))
           (fun _ => Fulfilled ((None, Some "{oops"), (None, VNum 7)))
           Sample.standalone "k" (Some "{oops") (VNum 7));
    [discriminate | reflexivity | reflexivity].
Defined.

Lemma store_errors_propagate_witness :
  result (set ScalarJSON.stringify (fun _ => Rejected Sample.ECONNRESET)
              Sample.standalone "k" (VNum 5) VUndefined)
  = Return (Rejected Sample.ECONNRESET).
Proof.
  apply (proj2 (store_errors_propagate ScalarJSON.parse ScalarJSON.stringify
                  (fun _ => Rejected Sample.ECONNRESET)
                  (fun _ => Rejected Sample.ECONNRESET)
                  Sample.standalone "k" (VNum 5) VUndefined Sample.ECONNRESET)).
  reflexivity.
Defined.

(** * Further properties of [init] *)

(** X7: with ioredis installed, in cluster mode a truthy [cluster.nodes]
    (an empty array counts) and, when the redlock package is installed, no
    empty [redlock.clients] array (the Redlock constructor refuses one),
    [init] succeeds: it keeps the prefix and the options, constructs
    exactly one client, a cluster client from [cluster.nodes] and
    [cluster.options] when [opts.cluster] is set and a standalone client
    from [opts.redis] otherwise, attaches the "connect" and "error"
    listeners to it, and enters monitor mode exactly when [opts.monitor] is
    set. *)
Theorem init_connects (pkgs : packages) (pfx : string) (o : opts) :
  has_ioredis pkgs = true →
  (∀ cl, o_cluster o = Some cl → truthy (nodes cl) = true) →
  (has_redlock pkgs = true → ∀ r, o_redlock o = Some r → clients r ≠ Some []) →
  ∃ c, result (init pkgs pfx o) = Return c ∧
       prefix c = pfx ∧ options_ c = o ∧
       client_ c = match o_cluster o with
                   | Some cl => RedisCluster (nodes cl) (options cl)
                   | None => Redis (o_redis o)
                   end ∧
       List.filter is_connect (trace (init pkgs pfx o))
         = [match o_cluster o with
            | Some cl => NewCluster (nodes cl) (options cl)
            | None => NewRedis (o_redis o)
            end] ∧
       In (Listen "connect") (trace (init pkgs pfx o)) ∧
       In (Listen "error") (trace (init pkgs pfx o)) ∧
       (In Monitor (trace (init pkgs pfx o)) ↔ o_monitor o = true).
Proof.
  intros Hio Hnodes Hclients. unfold init. rewrite Hio. run.
  destruct (o_cluster o) as [cl|] eqn:Hcl; run.
  - rewrite (Hnodes cl eq_refl). run.
    destruct (has_redlock pkgs) eqn:Hrl; run.
    + specialize (Hclients eq_refl).
      destruct (o_redlock o) as [[[[|x cs]|] st]|]; run;
        try (by destruct (Hclients _ eq_refl));
        destruct (o_monitor o); run;
        (eexists; repeat split; try reflexivity; simpl; auto 15;
         intros H; repeat (destruct H as [H|H]; try discriminate); done).
    + destruct (o_monitor o); run;
        (eexists; repeat split; try reflexivity; simpl; auto 15;
         intros H; repeat (destruct H as [H|H]; try discriminate); done).
  - destruct (has_redlock pkgs) eqn:Hrl; run.
    + specialize (Hclients eq_refl).
      destruct (o_redlock o) as [[[[|x cs]|] st]|]; run;
        try (by destruct (Hclients _ eq_refl));
        destruct (o_monitor o); run;
        (eexists; repeat split; try reflexivity; simpl; auto 15;
         intros H; repeat (destruct H as [H|H]; try discriminate); done).
    + destruct (o_monitor o); run;
        (eexists; repeat split; try reflexivity; simpl; auto 15;
         intros H; repeat (destruct H as [H|H]; try discriminate); done).
Qed.

Lemma init_connects_witness :
  ∃ c, result (init Sample.installed "MOL-" Sample.sharded) = Return c ∧
       client_ c = RedisCluster (VArr [VStr "10.0.0.1:7000"; VStr "10.0.0.2:7000"])
                                VUndefined.
Proof.
  destruct (init_connects Sample.installed "MOL-" Sample.sharded eq_refl)
    as (c & Hc & _ & _ & Hclient & _).
  - intros cl [= <-]. reflexivity.
  - intros _ r [=].
  - exists c. split; [exact Hc | exact Hclient].
Defined.

(** X8: when the redlock package is installed, a successful [init] builds
    both lock instances over the same clients, [opts.redlock.clients] when
    given and the cacher's own client otherwise; the blocking instance gets
    the rest of [opts.redlock] as its settings, the non-blocking one always
    gets a retry count of 0, whatever [opts.redlock] says. *)
Theorem init_redlock_instances (pkgs : packages) (pfx : string) (o : opts)
    (c : cacher) :
  has_redlock pkgs = true →
  result (init pkgs pfx o) = Return c →
  let cs := match o_redlock o with
            | Some r => default [client_ c] (clients r)
            | None => [client_ c]
            end in
  redlock_ c =
    Some (Redlock cs (match o_redlock o with
                      | Some r => rest r
                      | None => {| retryCount := None; retryDelay := None |}
                      end)) ∧
  redlockNonBlocking c =
    Some (Redlock cs {| retryCount := Some 0; retryDelay := None |}).
Proof.
  intros Hrl Hinit cs. subst cs.
  destruct (init_returns pkgs pfx o c Hinit) as (_ & _ & _ & _ & Hlocks).
  rewrite Hrl in Hlocks. destruct Hlocks as (_ & Hr & Hnb). done.
Qed.

Lemma init_redlock_instances_witness :
  ∃ c, result (init Sample.installed "MOL-" Sample.plain) = Return c ∧
       redlockNonBlocking c =
         Some (Redlock [Redis (VStr "redis://localhost:6379")]
                       {| retryCount := Some 0; retryDelay := None |}).
Proof.
  eexists. split; [reflexivity|].
  apply (init_redlock_instances Sample.installed "MOL-" Sample.plain _
           eq_refl eq_refl).
Defined.

(** X9: without the redlock package [init] still succeeds, warns, and
    builds no lock instance; on such a cacher [lock] and [tryLock] throw a
    TypeError at once, before any effect. *)
Theorem locks_unavailable (pkgs : packages) (pfx : string) (o : opts) (c : cacher)
    (quorum : redlock → string → nat → bool) (budget : nat)
    (key : string) (ttl : value) :
  has_redlock pkgs = false →
  result (init pkgs pfx o) = Return c →
  redlock_ c = None ∧ redlockNonBlocking c = None ∧
  (∀ r, ¬ In (NewRedlock r) (trace (init pkgs pfx o))) ∧
  In (Log Warn "The 'redlock' package is missing. If you want to enable cache lock, please install it with 'npm install redlock --save' command.")
     (trace (init pkgs pfx o)) ∧
  ∃ e, e_name e = "TypeError" ∧
       lock quorum budget c key ttl = (Throw e, []) ∧
       tryLock quorum budget c key ttl = (Throw e, []).
Proof.
  intros Hrl. unfold init, lock, tryLock. rewrite Hrl. run.
  destruct (has_ioredis pkgs); run; [|discriminate].
  destruct (o_cluster o) as [cl|]; run.
  - destruct (truthy (nodes cl)); run; [|discriminate].
    destruct (o_monitor o); run; intros [= <-]; simpl;
      (split; [done|]); (split; [done|]);
      (split; [intros r H; repeat (destruct H as [H|H]; try discriminate); done|]);
      (split; [auto 15|]); eexists; repeat split; reflexivity.
  - destruct (o_monitor o); run; intros [= <-]; simpl;
      (split; [done|]); (split; [done|]);
      (split; [intros r H; repeat (destruct H as [H|H]; try discriminate); done|]);
      (split; [auto 15|]); eexists; repeat split; reflexivity.
Qed.

Lemma locks_unavailable_witness :
  ∃ e, e_name e = "TypeError" ∧
       tryLock (fun _ _ _ => true) 10
         {| prefix := "MOL-"; options_ := Sample.plain;
            client_ := Redis (VStr "redis://localhost:6379");
            redlock_ := None; redlockNonBlocking := None |}
         "resource" VUndefined = (Throw e, []).
Proof.
  destruct (locks_unavailable {| has_ioredis := true; has_redlock := false |}
              "MOL-" Sample.plain _ (fun _ _ _ => true) 10 "resource" VUndefined
              eq_refl eq_refl)
    as (_ & _ & _ & _ & e & He & _ & Ht).
  exists e. split; [exact He | exact Ht].
Defined.

(** * Further properties of the scan engine *)

Lemma scan_rejection_origin_witness :
  In (StreamError (set_pattern Sample.ECONNRESET "MOL-user:*"))
     [Data (Some ["MOL-user:1"]); DelFailed Sample.ECONNRESET]
  ∨ ∃ e', In (DelFailed e')
             [Data (Some ["MOL-user:1"]); DelFailed Sample.ECONNRESET]
          ∧ set_pattern Sample.ECONNRESET "MOL-user:*"
            = set_pattern e' "MOL-user:*".
Proof.
  apply (scan_rejection_origin
           (fst (_nodeScanDel (Member "10.0.0.1:7000") "MOL-user:*"))
           [Data (Some ["MOL-user:1"]); DelFailed Sample.ECONNRESET]
           (set_pattern Sample.ECONNRESET "MOL-user:*"));
    reflexivity.
Defined.

Lemma deleted_app (t1 t2 : list effect) :
  deleted (t1 ++ t2) = deleted t1 ++ deleted t2.
Proof.
  induction t1 as [|e t1 IH]; simpl; [done|].
  destruct e; simpl; by rewrite ?IH.
Qed.

(** X11: a scan deletes what its stream yields and nothing else. Whatever
    the signals and in whatever state the scan is, the batches it asks the
    node to delete are exactly the batches with keys among its stream's
    "data", one delete per batch, in the order they came; it pauses the
    stream once per such batch and resumes it once per finished delete. *)
Theorem scan_deletes_what_it_scans (s : scan) (sigs : list signal) :
  let t := snd (scan_run s sigs) in
  deleted t = yielded sigs ∧
  length (List.filter (fun e => match e with Pause _ => true | _ => false end) t)
    = length (yielded sigs) ∧
  length (List.filter (fun e => match e with Resume _ => true | _ => false end) t)
    = length (List.filter (fun sig => match sig with DelDone => true | _ => false end) sigs).
Proof.
  simpl. revert s. induction sigs as [|sig sigs IH]; intros s; simpl; [done|].
  destruct (scan_step s sig) as [s1 t1] eqn:E1.
  specialize (IH s1). destruct (scan_run s1 sigs) as [s2 t2]. simpl in *.
  destruct IH as (IH1 & IH2 & IH3).
  rewrite deleted_app, !List.filter_app, !length_app, IH1, IH2, IH3.
  destruct sig as [[[|k ks]|]|e| | |e]; simpl in E1;
    unfold on_data, on_error, on_end, on_del_then, on_del_catch in E1;
    simpl in E1; injection E1 as <- <-; simpl; done.
Qed.

Lemma scan_run_deleted (s : scan) (sigs : list signal) :
  deleted (snd (scan_run s sigs)) = yielded sigs.
Proof.
  revert s. induction sigs as [|sig sigs IH]; intros s; simpl; [done|].
  destruct (scan_step s sig) as [s1 t1] eqn:E1.
  specialize (IH s1). destruct (scan_run s1 sigs) as [s2 t2]. simpl in *.
  rewrite deleted_app, IH.
  destruct sig as [[[|k ks]|]|e| | |e]; simpl in E1;
    unfold on_data, on_error, on_end, on_del_then, on_del_catch in E1;
    simpl in E1; injection E1 as <- <-; simpl; done.
Qed.

(** A job on the standalone client is its one scan, which sees the signals
    addressed to position 0 and no others. *)
Lemma job_run_node (s : scan) (sigs : list (nat * signal)) :
  job_run (OnNode s) sigs =
    (OnNode (fst (scan_run s (signals_to 0 sigs))),
     snd (scan_run s (signals_to 0 sigs))).
Proof.
  revert s. induction sigs as [|[k sig] sigs IH]; intros s; simpl; [done|].
  destruct k as [|k]; simpl.
  - destruct (scan_step s sig) as [s1 t1]. rewrite IH.
    by destruct (scan_run s1 (signals_to 0 sigs)).
  - by rewrite IH.
Qed.

Section EngineComposition.

Variable nodes_of : client → list node.
Variable this : cacher.

(** X12: on a standalone client [_scanDel(pattern)] opens one key stream,
    on the client itself, without asking for any node list; the promise of
    the pattern is the promise of that scan, fulfilled exactly when the
    stream ends with no stream or delete error before, rejected exactly
    when such an error comes first; and the batches deleted are exactly the
    batches with keys the stream yielded. *)
Theorem standaloneScanDel (pattern : string) (sigs : list (nat * signal)) :
  instanceof_Cluster (client_ this) = false →
  let n := Standalone (client_ this) in
  let start := _scanDel nodes_of this pattern in
  let run := job_run (fst start) sigs in
  snd start = [ScanStream n pattern 100] ∧
  fst run = OnNode (fst (scan_run (fst (_nodeScanDel n pattern))
                                  (signals_to 0 sigs))) ∧
  (job_promise (fst run) = Fulfilled tt ↔ ends_clean (signals_to 0 sigs) = true) ∧
  ((∃ e, job_promise (fst run) = Rejected e) ↔ fails (signals_to 0 sigs) = true) ∧
  deleted (snd run) = yielded (signals_to 0 sigs).
Proof.
  intros Hcl n start run. subst start run. unfold _scanDel. rewrite Hcl.
  simpl fst. simpl snd. rewrite job_run_node. simpl fst. simpl snd.
  split; [done|]. split; [done|].
  destruct (scan_run_promise (Scan n pattern true [] Pending)
              (signals_to 0 sigs) eq_refl) as [HF HR].
  split; [exact HF|]. split.
  - rewrite <- HR. simpl. symmetry. apply is_rejected_spec.
  - apply scan_run_deleted.
Qed.

(** X13: nothing is cancelled. On a cluster client, after any signals at
    all, the rejection of the pattern because of another node or of this
    very scan included, a batch with keys that reaches the scan of a node
    is still answered by pausing that node's stream and deleting the batch
    on that node, and this leaves the promise of the pattern as it is. *)
Theorem failed_pattern_keeps_deleting (pattern : string)
    (sigs : list (nat * signal)) (k : nat) (n : node) (keys : list string) :
  instanceof_Cluster (client_ this) = true →
  nodes_of (client_ this) !! k = Some n →
  keys ≠ [] →
  let j := fst (job_run (fst (_scanDel nodes_of this pattern)) sigs) in
  snd (job_step j k (Data (Some keys))) = [Pause n; NodeDel n keys] ∧
  job_promise (fst (job_step j k (Data (Some keys)))) = job_promise j.
Proof.
  intros Hcl Hk Hkeys j. subst j. unfold _scanDel. rewrite Hcl.
  rewrite clusterScanDel_start. simpl fst.
  set (ss0 := map (fun n => Scan n pattern true [] Pending) (nodes_of (client_ this))).
  assert (Hps : map (fun _ : node => @Pending unit) (nodes_of (client_ this))
                = map sc_promise ss0).
  { subst ss0. by rewrite map_map. }
  rewrite Hps.
  destruct (job_run_all ss0 (Promise_all (map sc_promise ss0)) sigs
              (Promise_all_settles _))
    as (ss' & all' & t & Hrun & Hlen & Hscans & _).
  rewrite Hrun. simpl fst.
  assert (Hs : ss' !! k = Some (fst (scan_run (Scan n pattern true [] Pending)
                                              (signals_to k sigs)))).
  { apply Hscans. subst ss0. by rewrite list_lookup_fmap, Hk. }
  destruct (scan_run_same_target (Scan n pattern true [] Pending)
              (signals_to k sigs)) as [Hn _]. simpl in Hn.
  set (s := fst (scan_run (Scan n pattern true [] Pending) (signals_to k sigs))) in *.
  simpl. rewrite Hs. unfold on_data. simpl.
  destruct keys as [|key keys]; [done|]. simpl. rewrite Hn.
  split; [done|]. by destruct (sc_promise s).
Qed.

Lemma all_done_unfinished (c : chain) :
  all_done c → unfinished c = 0 ∧ chain_promise c = Fulfilled tt.
Proof.
  induction 1 as [|c el j Hc [IH _] Hj]; simpl; [done|].
  rewrite Hj. simpl. by rewrite IH.
Qed.

Lemma sequential_unfinished (c : chain) :
  sequential c → unfinished c ≤ 1.
Proof.
  induction 1 as [c Hc|c el j Hc Hj|c el Hc IH Hp|c el e Hc IH Hp]; simpl.
  - destruct (all_done_unfinished c Hc) as [-> _]. lia.
  - destruct (all_done_unfinished c Hc) as [-> _].
    destruct (is_fulfilled (job_promise j)); simpl; lia.
  - done.
  - done.
Qed.

(** X14: [clean] works on one pattern at a time. After the call and any
    signals of the nodes, in any order: the jobs started so far are those
    of a first part of the patterns, all of them fulfilled except possibly
    the last; so at most one job is started and not fulfilled; while it is
    pending the later patterns wait, and once it is rejected they are
    skipped and never started. The promise [clean] returned is that of the
    chain, fulfilled exactly when the job of every pattern has run and is
    fulfilled. *)
Theorem clean_one_at_a_time (match_ : option (string + list string))
    (evs : list event) :
  let st := fst (clean_then nodes_of this match_ evs) in
  sequential (cl_chain st) ∧
  unfinished (cl_chain st) ≤ 1 ∧
  cl_promise st = chain_promise (cl_chain st) ∧
  (cl_promise st = Fulfilled tt ↔ all_done (cl_chain st)).
Proof.
  intros st. destruct (clean_sequential nodes_of this match_ evs) as [Hseq Hp].
  fold st in Hseq, Hp.
  split; [done|]. split; [by apply sequential_unfinished|]. split; [done|].
  rewrite Hp. split.
  - by apply sequential_fulfilled.
  - intros H. by apply all_done_unfinished.
Qed.

End EngineComposition.

Lemma standaloneScanDel_witness :
  deleted (snd (job_run (fst (_scanDel Sample.pool Sample.standalone "MOL-user:*"))
                  [(0, Data (Some ["MOL-user:1"])); (0, DelDone);
                   (0, Data (Some [])); (0, End)]))
  = [["MOL-user:1"]].
Proof.
  apply (standaloneScanDel Sample.pool Sample.standalone "MOL-user:*"
           [(0, Data (Some ["MOL-user:1"])); (0, DelDone);
            (0, Data (Some [])); (0, End)] eq_refl).
Defined.

Lemma failed_pattern_keeps_deleting_witness :
  snd (job_step
         (fst (job_run (fst (_scanDel Sample.pool Sample.cluster "MOL-user:*"))
                 [(0, StreamError Sample.ECONNRESET)]))
         1 (Data (Some ["MOL-user:9"])))
  = [Pause (Member "10.0.0.2:7000");
     NodeDel (Member "10.0.0.2:7000") ["MOL-user:9"]].
Proof.
  destruct (failed_pattern_keeps_deleting Sample.pool Sample.cluster "MOL-user:*"
              [(0, StreamError Sample.ECONNRESET)] 1 (Member "10.0.0.2:7000")
              ["MOL-user:9"] eq_refl eq_refl ltac:(discriminate)) as [H _].
  exact H.
Defined.

(** * Further properties of [collapse] *)

Lemma has_double_star_stars (k : nat) :
  has_double_star (stars k) = true ↔ 2 ≤ k.
Proof.
  induction k as [|[|k] IH]; simpl in *.
  - split; [done | lia].
  - split; [done | lia].
  - split; [lia | done].
Qed.

Lemma collapse_length_two (s : string) :
  String.length (collapse s) ≤ String.length s ∧
  ∀ c, String.length (collapse (String c s)) ≤ S (String.length s).
Proof.
  induction s as [|c' s [IH1 IH2]].
  - split; [done|]. intros c. simpl. by destruct (Ascii.eqb c "*").
  - split; [apply IH2|]. intros c. rewrite collapse_two.
    destruct (Ascii.eqb c "*" && Ascii.eqb c' "*")%bool.
    + change (String.length (String "*" (collapse s)))
        with (S (String.length (collapse s))).
      change (String.length (String c' s)) with (S (String.length s)). lia.
    + change (String.length (String c (collapse (String c' s))))
        with (S (String.length (collapse (String c' s)))).
      specialize (IH2 c').
      change (String.length (String c' s)) with (S (String.length s)). lia.
Qed.

(** X15: what the pattern normalization of [clean] does to stars. It never
    lengthens a pattern, and it turns a run of [n] stars into a run of
    [n] halved and rounded up: two stars become one, but three become two
    and four become two, so the normalized pattern still holds a double
    star exactly when the run had three stars or more. *)
Theorem collapse_star_run (n : nat) :
  collapse (stars n) = stars (Nat.div2 (S n)) ∧
  (has_double_star (collapse (stars n)) = true ↔ 3 ≤ n) ∧
  (∀ s, String.length (collapse s) ≤ String.length s).
Proof.
  assert (H : ∀ m, collapse (stars m) = stars (Nat.div2 (S m)) ∧
                   collapse (stars (S m)) = stars (Nat.div2 (S (S m)))).
  { induction m as [|m [IH1 IH2]]; [done|].
    split; [exact IH2|].
    change (stars (S (S m))) with (String "*" (String "*" (stars m))).
    rewrite collapse_two. simpl andb. cbv iota. rewrite IH1. reflexivity. }
  destruct (H n) as [Hn _]. split; [exact Hn|]. split.
  - rewrite Hn, has_double_star_stars.
    destruct n as [|[|[|n]]]; simpl; try lia.
    destruct (Nat.div2 n); lia.
  - intros s. apply collapse_length_two.
Qed.

(** * Patterns one after the other, on a standalone client *)

Lemma waiting_on_snoc (c : chain) (rest : list string) (x : string) :
  waiting_on c (rest ++ [x]) = Then (waiting_on c rest) x Waiting.
Proof. unfold waiting_on. by rewrite fold_left_app. Qed.

Lemma chain_promise_waiting (c : chain) (rest : list string) :
  chain_promise c = Pending → chain_promise (waiting_on c rest) = Pending.
Proof.
  intros H. induction rest as [|x rest _] using rev_ind; [done|].
  by rewrite waiting_on_snoc.
Qed.

Lemma depth_waiting (c : chain) (rest : list string) :
  depth (waiting_on c rest) = depth c + length rest.
Proof.
  induction rest as [|x rest IH] using rev_ind; simpl; [lia|].
  rewrite waiting_on_snoc, length_app. simpl. lia.
Qed.

Lemma deliver_waiting (c : chain) (rest : list string) (i k : nat)
    (sig : signal) :
  i < depth c →
  deliver (waiting_on c rest) i k sig =
    (waiting_on (fst (deliver c i k sig)) rest, snd (deliver c i k sig)).
Proof.
  intros Hi. induction rest as [|x rest IH] using rev_ind.
  - simpl. by destruct (deliver c i k sig).
  - rewrite !waiting_on_snoc. simpl.
    destruct (decide (i = depth (waiting_on c rest))) as [Heq|Hne].
    + rewrite depth_waiting in Heq. lia.
    + by rewrite IH.
Qed.

Lemma filter_opens_nothing (t : list effect) :
  (∀ e, In e t → is_ScanStream e = false) → List.filter is_ScanStream t = [].
Proof.
  induction t as [|e t IH]; simpl; [done|]. intros H.
  rewrite (H e) by auto. apply IH. auto.
Qed.

Section StandaloneRun.

Variable nodes_of : client → list node.
Variable this : cacher.
Hypothesis standalone : instanceof_Cluster (client_ this) = false.

Lemma flush_waiting (c c2 : chain) (t : list effect) (rest : list string) :
  flush nodes_of this c = (c2, t) →
  chain_promise c2 = Pending →
  flush nodes_of this (waiting_on c rest) = (waiting_on c2 rest, t).
Proof.
  intros Hf Hp. induction rest as [|x rest IH] using rev_ind; [done|].
  rewrite !waiting_on_snoc. simpl. rewrite IH.
  by rewrite (chain_promise_waiting c2 rest Hp).
Qed.

Lemma clean_run_app (st : cleaning) (evs1 evs2 : list event) :
  clean_run nodes_of this st (evs1 ++ evs2) =
    let '(st1, t1) := clean_run nodes_of this st evs1 in
    let '(st2, t2) := clean_run nodes_of this st1 evs2 in
    (st2, t1 ++ t2).
Proof.
  revert st. induction evs1 as [|ev evs1 IH]; intros st; simpl.
  - by destruct (clean_run nodes_of this st evs2).
  - destruct (clean_step nodes_of this st ev) as [st1 t1]. rewrite IH.
    destruct (clean_run nodes_of this st1 evs1) as [st2 t2].
    destruct (clean_run nodes_of this st2 evs2) as [st3 t3].
    by rewrite app_assoc.
Qed.

(** A batch or a finished delete on the scan in progress: only that scan
    moves. *)
Lemma step_quiet (D : chain) (el : string) (s : scan) (rest : list string)
    (sig : signal) :
  all_done D →
  sc_promise (fst (scan_step s sig)) = Pending →
  clean_step nodes_of this
    (Cleaning (waiting_on (Then D el (Started (OnNode s))) rest) Pending)
    (Event (depth D) 0 sig)
  = (Cleaning (waiting_on (Then D el (Started (OnNode (fst (scan_step s sig))))) rest)
              Pending,
     snd (scan_step s sig)).
Proof.
  intros HD Hp. unfold clean_step. simpl ev_pattern. simpl ev_node.
  simpl ev_signal. simpl cl_chain. simpl cl_promise.
  rewrite deliver_waiting by (simpl; lia). simpl deliver.
  destruct (decide (depth D = depth D)) as [_|Hne]; [|done].
  destruct (scan_step s sig) as [s1 t1] eqn:E1. simpl fst. simpl snd.
  simpl in Hp.
  rewrite (flush_waiting (Then D el (Started (OnNode s1)))
             (Then D el (Started (OnNode s1))) [] rest).
  - unfold on_settled.
    rewrite (chain_promise_waiting (Then D el (Started (OnNode s1))) rest Hp).
    by rewrite !app_nil_r.
  - simpl. by rewrite (flush_all_done nodes_of this D HD).
  - exact Hp.
Qed.

(** The stream of the scan in progress ends and patterns are left: the
    scan of the next pattern is opened in the same step. *)
Lemma step_end_more (D : chain) (el : string) (s : scan) (el2 : string)
    (rest : list string) :
  all_done D →
  sc_promise s = Pending →
  clean_step nodes_of this
    (Cleaning (waiting_on (Then D el (Started (OnNode s))) (el2 :: rest)) Pending)
    (Event (depth D) 0 End)
  = (Cleaning
       (waiting_on
          (Then (Then D el (Started (OnNode (fst (on_end s))))) el2
                (Started (OnNode (Scan (Standalone (client_ this)) el2 true []
                                       Pending))))
          rest)
       Pending,
     [ConsoleLog "End deleting keys from node";
      ScanStream (Standalone (client_ this)) el2 100]).
Proof.
  intros HD Hp. unfold clean_step. simpl ev_pattern. simpl ev_node.
  simpl ev_signal. simpl cl_chain. simpl cl_promise.
  change (waiting_on (Then D el (Started (OnNode s))) (el2 :: rest))
    with (waiting_on (Then (Then D el (Started (OnNode s))) el2 Waiting) rest).
  rewrite deliver_waiting by (simpl; lia). simpl deliver.
  destruct (decide (depth D = S (depth D))) as [Heq|_]; [lia|].
  destruct (decide (depth D = depth D)) as [_|Hne]; [|done].
  simpl fst. simpl snd.
  rewrite (flush_waiting _
             (Then (Then D el (Started (OnNode (fst (on_end s))))) el2
                   (Started (OnNode (Scan (Standalone (client_ this)) el2 true []
                                          Pending))))
             [ScanStream (Standalone (client_ this)) el2 100] rest).
  - unfold on_settled. rewrite chain_promise_waiting by done. reflexivity.
  - simpl. rewrite (flush_all_done nodes_of this D HD). simpl.
    rewrite Hp. simpl. unfold _scanDel. rewrite standalone. reflexivity.
  - reflexivity.
Qed.

(** The stream of the last pattern ends: [clean] is fulfilled. *)
Lemma step_end_last (D : chain) (el : string) (s : scan) :
  all_done D →
  sc_promise s = Pending →
  clean_step nodes_of this
    (Cleaning (Then D el (Started (OnNode s))) Pending) (Event (depth D) 0 End)
  = (Cleaning (Then D el (Started (OnNode (fst (on_end s))))) (Fulfilled tt),
     [ConsoleLog "End deleting keys from node"]).
Proof.
  intros HD Hp. unfold clean_step. simpl.
  destruct (decide (depth D = depth D)) as [_|Hne]; [|done]. simpl.
  rewrite (flush_all_done nodes_of this D HD). simpl. by rewrite Hp.
Qed.

Lemma run_current (D : chain) (el : string) (rest : list string)
    (sigs : list signal) (s : scan) :
  all_done D →
  sc_promise s = Pending →
  finishes sigs = true →
  ∃ s' t,
    sc_promise s' = Fulfilled tt ∧ deleted t = yielded sigs ∧
    match rest with
    | [] =>
        clean_run nodes_of this
          (Cleaning (Then D el (Started (OnNode s))) Pending)
          (map (Event (depth D) 0) sigs)
        = (Cleaning (Then D el (Started (OnNode s'))) (Fulfilled tt), t) ∧
        List.filter is_ScanStream t = []
    | el2 :: rest' =>
        clean_run nodes_of this
          (Cleaning (waiting_on (Then D el (Started (OnNode s))) rest) Pending)
          (map (Event (depth D) 0) sigs)
        = (Cleaning
             (waiting_on
                (Then (Then D el (Started (OnNode s'))) el2
                      (Started (OnNode (Scan (Standalone (client_ this)) el2 true []
                                             Pending))))
                rest')
             Pending, t) ∧
        List.filter is_ScanStream t = [ScanStream (Standalone (client_ this)) el2 100]
    end.
Proof.
  intros HD. revert s. induction sigs as [|sig sigs IH]; intros s Hp Hfin;
    [done|].
  assert (Hquiet : ∀ keys_or_done,
            sig = keys_or_done →
            (∃ keys, sig = Data keys) ∨ sig = DelDone →
            finishes sigs = true →
            ∃ s' t,
              sc_promise s' = Fulfilled tt ∧ deleted t = yielded (sig :: sigs) ∧
              match rest with
              | [] =>
                  clean_run nodes_of this
                    (Cleaning (Then D el (Started (OnNode s))) Pending)
                    (map (Event (depth D) 0) (sig :: sigs))
                  = (Cleaning (Then D el (Started (OnNode s'))) (Fulfilled tt), t) ∧
                  List.filter is_ScanStream t = []
              | el2 :: rest' =>
                  clean_run nodes_of this
                    (Cleaning (waiting_on (Then D el (Started (OnNode s))) rest)
                              Pending)
                    (map (Event (depth D) 0) (sig :: sigs))
                  = (Cleaning
                       (waiting_on
                          (Then (Then D el (Started (OnNode s'))) el2
                                (Started (OnNode (Scan (Standalone (client_ this))
                                                       el2 true [] Pending))))
                          rest')
                       Pending, t) ∧
                  List.filter is_ScanStream t
                  = [ScanStream (Standalone (client_ this)) el2 100]
              end).
  { intros _ _ Hquiet Hfin'.
    assert (Hp1 : sc_promise (fst (scan_step s sig)) = Pending).
    { destruct Hquiet as [[keys ->]| ->]; simpl; [|done].
      unfold on_data. by destruct (length (default [] keys) =? 0)%nat. }
    assert (Hdel : deleted (snd (scan_step s sig)) ++ yielded sigs
                   = yielded (sig :: sigs)).
    { destruct Hquiet as [[keys ->]| ->]; simpl; [|done].
      unfold on_data. by destruct keys as [[|k ks]|]. }
    pose proof (scan_step_opens_nothing s sig) as Hopen.
    pose proof (step_quiet D el s rest sig HD Hp1) as Hstep.
    destruct (IH (fst (scan_step s sig)) Hp1 Hfin')
      as (s' & t & Hs' & Ht & Hrest).
    exists s', (snd (scan_step s sig) ++ t).
    split; [done|]. split; [by rewrite deleted_app, Ht|].
    destruct rest as [|el2 rest'].
    - destruct Hrest as [Hrun Hfil]. cbn [map clean_run].
      simpl waiting_on in Hstep. rewrite Hstep, Hrun.
      split; [done|].
      by rewrite List.filter_app, Hfil, (filter_opens_nothing _ Hopen).
    - destruct Hrest as [Hrun Hfil]. cbn [map clean_run].
      rewrite Hstep, Hrun. split; [done|].
      by rewrite List.filter_app, Hfil, (filter_opens_nothing _ Hopen). }
  destruct sig as [keys|e| | |e]; simpl in Hfin; try done.
  - apply (Hquiet _ eq_refl); eauto.
  - destruct sigs as [|sig' sigs']; [|done].
    exists (fst (on_end s)), (
      match rest with
      | [] => [ConsoleLog "End deleting keys from node"]
      | el2 :: _ => [ConsoleLog "End deleting keys from node";
                     ScanStream (Standalone (client_ this)) el2 100]
      end).
    split; [simpl; by rewrite Hp|].
    destruct rest as [|el2 rest']; (split; [done|]); cbn [map clean_run].
    + by rewrite (step_end_last D el s HD Hp).
    + by rewrite (step_end_more D el s el2 rest' HD Hp).
  - apply (Hquiet _ eq_refl); eauto.
Qed.

Lemma run_all (rest : list string) :
  ∀ (D : chain) (el : string) (s : scan) (sigs : list signal)
    (runs : list (list signal)),
  all_done D →
  sc_promise s = Pending →
  finishes sigs = true →
  length runs = length rest →
  Forall (fun sigs => finishes sigs = true) runs →
  ∃ st' t,
    clean_run nodes_of this
      (Cleaning (waiting_on (Then D el (Started (OnNode s))) rest) Pending)
      (map (Event (depth D) 0) sigs ++ events_for (S (depth D)) runs)
    = (st', t) ∧
    cl_promise st' = Fulfilled tt ∧
    deleted t = yielded sigs ++ concat (map yielded runs) ∧
    List.filter is_ScanStream t
    = map (fun el => ScanStream (Standalone (client_ this)) el 100) rest.
Proof.
  induction rest as [|el2 rest IH]; intros D el s sigs runs HD Hp Hfin Hlen Hruns.
  - destruct runs; [|done]. simpl. rewrite !app_nil_r.
    destruct (run_current D el [] sigs s HD Hp Hfin)
      as (s' & t & Hs' & Ht & Hrun & Hfil).
    exists (Cleaning (Then D el (Started (OnNode s'))) (Fulfilled tt)), t.
    done.
  - destruct runs as [|sigs2 runs]; [done|].
    apply Forall_cons in Hruns as [Hfin2 Hruns]. simpl in Hlen.
    destruct (run_current D el (el2 :: rest) sigs s HD Hp Hfin)
      as (s' & t & Hs' & Ht & Hrun & Hfil).
    rewrite clean_run_app, Hrun.
    assert (HD' : all_done (Then D el (Started (OnNode s')))).
    { by constructor. }
    destruct (IH (Then D el (Started (OnNode s'))) el2
                 (Scan (Standalone (client_ this)) el2 true [] Pending)
                 sigs2 runs HD' eq_refl Hfin2 ltac:(lia) Hruns)
      as (st' & t' & Hrun' & Hpr & Ht' & Hfil').
    simpl depth in Hrun'. simpl events_for. rewrite Hrun'.
    exists st', (t ++ t'). split; [done|]. split; [done|].
    split.
    + rewrite deleted_app, Ht, Ht'. simpl. by rewrite app_assoc.
    + rewrite List.filter_app, Hfil, Hfil'. reflexivity.
Qed.

(** X16: on a standalone client, when the stream of each pattern in turn
    yields its batches, has its deletes done and then ends, [clean] opens
    one key stream per pattern, in the order the patterns were given and
    each for the prefixed, collapsed pattern; it deletes exactly the
    batches with keys the streams yielded, in that order; and the promise
    it returned is fulfilled after the last stream has ended. *)
Theorem clean_runs_patterns_in_order (ms : list string)
    (runs : list (list signal)) :
  length runs = length ms →
  Forall (fun sigs => finishes sigs = true) runs →
  let run := clean_then nodes_of this (Some (inr ms)) (events_for 0 runs) in
  cl_promise (fst run) = Fulfilled tt ∧
  List.filter is_ScanStream (snd run)
  = map (fun m => ScanStream (Standalone (client_ this))
                             (prefix this +:+ collapse m) 100) ms ∧
  deleted (snd run) = concat (map yielded runs).
Proof.
  intros Hlen Hruns. destruct ms as [|m ms].
  - destruct runs; [|done]. simpl. done.
  - destruct runs as [|sigs runs]; [done|].
    apply Forall_cons in Hruns as [Hfin Hruns]. simpl in Hlen.
    unfold clean_then, clean. cbn -[on_settled flush clean_run events_for].
    set (el := prefix this +:+ collapse m).
    set (rest := map (fun m0 => prefix this +:+ collapse m0) ms).
    change (fold_left (fun chain element => Then chain element Waiting) rest
              (Then PromiseResolve el Waiting))
      with (waiting_on (Then PromiseResolve el Waiting) rest).
    rewrite (flush_waiting (Then PromiseResolve el Waiting)
               (Then PromiseResolve el
                     (Started (OnNode (Scan (Standalone (client_ this)) el true []
                                            Pending))))
               [ScanStream (Standalone (client_ this)) el 100] rest);
      [| simpl; unfold _scanDel; by rewrite standalone | done].
    unfold on_settled. rewrite chain_promise_waiting by done.
    destruct (run_all rest PromiseResolve el
                (Scan (Standalone (client_ this)) el true [] Pending)
                sigs runs done_resolve eq_refl Hfin
                ltac:(subst rest; rewrite length_map; lia) Hruns)
      as (st' & t & Hrun & Hpr & Ht & Hfil).
    simpl depth in Hrun. simpl events_for. rewrite Hrun. simpl.
    split; [done|]. split.
    + rewrite Hfil. subst rest. by rewrite map_map.
    + exact Ht.
Qed.

End StandaloneRun.

Lemma clean_runs_patterns_in_order_witness :
  deleted (snd (clean_then Sample.pool Sample.standalone
                  (Some (inr ["user:**"; "order:*"]))
                  (events_for 0
                     [[Data (Some ["MOL-user:1"; "MOL-user:2"]); DelDone; End];
                      [Data (Some []); End]])))
  = [["MOL-user:1"; "MOL-user:2"]].
Proof.
  apply (clean_runs_patterns_in_order Sample.pool Sample.standalone eq_refl
           ["user:**"; "order:*"]
           [[Data (Some ["MOL-user:1"; "MOL-user:2"]); DelDone; End];
            [Data (Some []); End]] eq_refl).
  repeat constructor.
Defined.

(** * After [clean] has settled *)

Section Settled.

Variable nodes_of : client → list node.
Variable this : cacher.

Lemma all_done_no_waiting (c : chain) : all_done c → no_waiting c = true.
Proof. induction 1; simpl; done. Qed.

Lemma sequential_settled_no_waiting (c : chain) :
  sequential c → chain_promise c ≠ Pending → no_waiting c = true.
Proof.
  induction 1 as [c Hc|c el j Hc Hj|c el Hc IH Hp|c el e Hc IH Hp]; simpl;
    intros Hne.
  - by apply all_done_no_waiting.
  - by apply all_done_no_waiting.
  - done.
  - apply IH. by rewrite Hp.
Qed.

Lemma deliver_no_waiting (c : chain) (i k : nat) (sig : signal) :
  no_waiting c = true → no_waiting (fst (deliver c i k sig)) = true.
Proof.
  induction c as [|c IH el r]; simpl; [done|].
  destruct (decide (i = depth c)) as [Heq|Hne].
  - destruct r as [|j|e]; simpl; [done| |done].
    by destruct (job_step j k sig).
  - destruct (deliver c i k sig) as [c' t]. simpl in *.
    by destruct r.
Qed.

Lemma flush_no_waiting (c : chain) :
  no_waiting c = true → flush nodes_of this c = (c, []).
Proof.
  induction c as [|c IH el r]; simpl; [done|].
  destruct r as [|j|e]; [done| |]; intros H; by rewrite IH.
Qed.

Lemma settled_run (st : cleaning) (evs : list event) :
  no_waiting (cl_chain st) = true →
  cl_promise st ≠ Pending →
  cl_promise (fst (clean_run nodes_of this st evs)) = cl_promise st ∧
  List.filter is_ScanStream (snd (clean_run nodes_of this st evs)) = [].
Proof.
  revert st. induction evs as [|ev evs IH]; intros st Hnw Hp; simpl; [done|].
  unfold clean_step.
  pose proof (deliver_no_waiting (cl_chain st) (ev_pattern ev) (ev_node ev)
                (ev_signal ev) Hnw) as H1.
  pose proof (deliver_opens_nothing (cl_chain st) (ev_pattern ev) (ev_node ev)
                (ev_signal ev)) as Ho.
  destruct (deliver (cl_chain st) (ev_pattern ev) (ev_node ev) (ev_signal ev))
    as [c1 t1]. simpl in H1, Ho.
  rewrite (flush_no_waiting c1 H1).
  assert (Hs : on_settled (cl_promise st) c1 = (cl_promise st, [])).
  { unfold on_settled. by destruct (cl_promise st). }
  rewrite Hs.
  destruct (IH (Cleaning c1 (cl_promise st)) H1 Hp) as [IHp IHt].
  destruct (clean_run nodes_of this (Cleaning c1 (cl_promise st)) evs) as [st2 t2].
  simpl in *. split; [done|].
  rewrite !List.filter_app, IHt, (filter_opens_nothing _ Ho). reflexivity.
Qed.

(** X17: a settled [clean] is final. Once the promise [clean] returned is
    fulfilled or rejected, no later signal of a node changes it, and no key
    stream is opened any more: after a failure the remaining patterns are
    never started. *)
Theorem clean_settled_is_final (match_ : option (string + list string))
    (evs evs' : list event) :
  let st := fst (clean_then nodes_of this match_ evs) in
  cl_promise st ≠ Pending →
  cl_promise (fst (clean_run nodes_of this st evs')) = cl_promise st ∧
  List.filter is_ScanStream (snd (clean_run nodes_of this st evs')) = [].
Proof.
  intros st Hp.
  destruct (clean_sequential nodes_of this match_ evs) as [Hseq Hpr].
  fold st in Hseq, Hpr.
  apply settled_run; [|done].
  apply sequential_settled_no_waiting; [done|]. by rewrite <- Hpr.
Qed.

End Settled.

Lemma clean_settled_is_final_witness :
  List.filter is_ScanStream
    (snd (clean_run Sample.pool Sample.standalone
            (fst (clean_then Sample.pool Sample.standalone
                    (Some (inr ["user:*"; "order:*"]))
                    [Event 0 0 (StreamError Sample.ECONNRESET)]))
            [Event 0 0 (Data (Some ["MOL-user:1"])); Event 1 0 End]))
  = [].
Proof.
  apply (clean_settled_is_final Sample.pool Sample.standalone
           (Some (inr ["user:*"; "order:*"]))
           [Event 0 0 (StreamError Sample.ECONNRESET)]
           [Event 0 0 (Data (Some ["MOL-user:1"])); Event 1 0 End]).
  discriminate.
Defined.

(** * A cluster without nodes *)

Section EmptyPool.

Variable nodes_of : client → list node.
Variable this : cacher.
Hypothesis cluster : instanceof_Cluster (client_ this) = true.
Hypothesis no_nodes : nodes_of (client_ this) = [].

Lemma scanDel_empty_pool (pattern : string) :
  _scanDel nodes_of this pattern = (OnAll [] (Fulfilled tt), []).
Proof.
  unfold _scanDel. rewrite cluster, clusterScanDel_start, no_nodes. reflexivity.
Qed.

Lemma all_empty_jobs_promise (c : chain) :
  all_empty_jobs c = true → chain_promise c = Fulfilled tt.
Proof.
  destruct c as [|c el [|[s|[|s ss] [|[]|e]]|e]]; simpl; done.
Qed.

Lemma flush_empty_jobs (c : chain) :
  all_empty_jobs c = true → flush nodes_of this c = (c, []).
Proof.
  induction c as [|c IH el r]; simpl; [done|].
  destruct r as [|[s|[|s ss] [|[]|e]]|e]; try done.
  intros H. by rewrite IH.
Qed.

Lemma flush_empty_pool (c : chain) (rest : list string) :
  all_empty_jobs c = true →
  ∃ c', flush nodes_of this (waiting_on c rest) = (c', []) ∧
        all_empty_jobs c' = true.
Proof.
  intros Hc. induction rest as [|x rest (c' & Hf & Hc')] using rev_ind.
  - exists c. split; [by apply flush_empty_jobs | done].
  - rewrite waiting_on_snoc. simpl. rewrite Hf.
    rewrite (all_empty_jobs_promise c' Hc'), scanDel_empty_pool.
    eexists. split; [reflexivity | done].
Qed.

Lemma deliver_empty_jobs (c : chain) (i k : nat) (sig : signal) :
  all_empty_jobs c = true → deliver c i k sig = (c, []).
Proof.
  induction c as [|c IH el r]; simpl; [done|].
  destruct r as [|[s|[|s ss] [|[]|e]]|e]; try done.
  intros H. destruct (decide (i = depth c)) as [Heq|Hne]; [done|].
  by rewrite IH.
Qed.

Lemma clean_run_empty_jobs (c : chain) (evs : list event) :
  all_empty_jobs c = true →
  clean_run nodes_of this (Cleaning c (Fulfilled tt)) evs
  = (Cleaning c (Fulfilled tt), []).
Proof.
  intros Hc. induction evs as [|ev evs IH]; simpl; [done|].
  unfold clean_step. simpl cl_chain.
  rewrite (deliver_empty_jobs c _ _ _ Hc), (flush_empty_jobs c Hc). simpl.
  by rewrite IH.
Qed.

(** X18: on a cluster client whose pool has no node, [clean] is fulfilled
    at once for any patterns: every
    pattern's [Promise.all] has nothing to wait for, no key stream is
    opened and nothing is deleted, then or later; the only effect is the
    debug line. *)
Theorem clean_on_empty_pool (match_ : option (string + list string))
    (evs : list event) :
  cl_promise (fst (clean_then nodes_of this match_ evs)) = Fulfilled tt ∧
  snd (clean_then nodes_of this match_ evs)
  = [Log Debug ("CLEAN " +:+ join "," (patterns_of match_))].
Proof.
  unfold clean_then, clean.
  assert (Hpat : match default (inl "*") match_ with
                 | inl m => [m]
                 | inr ms => ms
                 end = patterns_of match_).
  { by destruct match_ as [[m|ms]|]. }
  rewrite Hpat.
  set (els := map (fun m => prefix this +:+ collapse m) (patterns_of match_)).
  destruct (flush_empty_pool PromiseResolve els eq_refl) as (c' & Hf & Hc').
  change (_sequentialPromises els) with (waiting_on PromiseResolve els).
  rewrite Hf. unfold on_settled. rewrite (all_empty_jobs_promise c' Hc').
  rewrite (clean_run_empty_jobs c' evs Hc'). done.
Qed.

End EmptyPool.

Lemma clean_on_empty_pool_witness :
  cl_promise (fst (clean_then (fun _ => []) Sample.cluster
                     (Some (inr ["user:*"; "order:*"])) [Event 0 0 End]))
  = Fulfilled tt.
Proof.
  apply (clean_on_empty_pool (fun _ => []) Sample.cluster eq_refl eq_refl
           (Some (inr ["user:*"; "order:*"])) [Event 0 0 End]).
Defined.

(** * What [clean] deletes *)

Lemma scan_step_deletes (s : scan) (sig : signal) (n : node)
    (keys : list string) :
  In (NodeDel n keys) (snd (scan_step s sig)) →
  sig = Data (Some keys) ∧ keys ≠ [] ∧ n = sc_node s.
Proof.
  destruct sig as [ks|e| | |e]; simpl;
    try (intros [H|[]]; discriminate); try done.
  unfold on_data. destruct ks as [[|k ks]|]; simpl; try done.
  intros [H|[H|[]]]; [discriminate|]. injection H as <- <-. done.
Qed.

Lemma job_step_deletes (j : job) (k : nat) (sig : signal) (n : node)
    (keys : list string) :
  In (NodeDel n keys) (snd (job_step j k sig)) →
  sig = Data (Some keys) ∧ keys ≠ [].
Proof.
  destruct j as [s|ss all]; simpl.
  - destruct k; [|done].
    pose proof (scan_step_deletes s sig n keys) as H.
    destruct (scan_step s sig). simpl in *. intros Hin.
    destruct (H Hin) as (? & ? & ?). done.
  - destruct (ss !! k) as [s|]; [|done].
    pose proof (scan_step_deletes s sig n keys) as H.
    destruct (scan_step s sig). simpl in *. intros Hin.
    destruct (H Hin) as (? & ? & ?). done.
Qed.

Lemma deliver_deletes (c : chain) (i k : nat) (sig : signal) (n : node)
    (keys : list string) :
  In (NodeDel n keys) (snd (deliver c i k sig)) →
  sig = Data (Some keys) ∧ keys ≠ [].
Proof.
  induction c as [|c IH el r]; simpl; [done|].
  destruct (decide (i = depth c)) as [Heq|Hne].
  - destruct r as [|j|e]; simpl; [done| |done].
    pose proof (job_step_deletes j k sig n keys) as H.
    by destruct (job_step j k sig).
  - by destruct (deliver c i k sig).
Qed.

Section Deletes.

Variable nodes_of : client → list node.
Variable this : cacher.

Lemma clean_run_deletes (st : cleaning) (evs : list event) (n : node)
    (keys : list string) :
  In (NodeDel n keys) (snd (clean_run nodes_of this st evs)) →
  keys ≠ [] ∧ ∃ ev, In ev evs ∧ ev_signal ev = Data (Some keys).
Proof.
  revert st. induction evs as [|ev evs IH]; intros st; simpl; [done|].
  unfold clean_step.
  pose proof (deliver_deletes (cl_chain st) (ev_pattern ev) (ev_node ev)
                (ev_signal ev) n keys) as H1.
  destruct (deliver (cl_chain st) (ev_pattern ev) (ev_node ev) (ev_signal ev))
    as [c1 t1]. simpl in H1.
  pose proof (flush_opens nodes_of this c1 (NodeDel n keys)) as H2.
  destruct (flush nodes_of this c1) as [c2 t2]. simpl in H2.
  pose proof (on_settled_opens_nothing (cl_promise st) c2) as H3.
  assert (H3' : ¬ In (NodeDel n keys) (snd (on_settled (cl_promise st) c2))).
  { unfold on_settled. destruct (cl_promise st); simpl; try tauto.
    destruct (chain_promise c2); simpl; try tauto. intros [H|[]]. discriminate. }
  destruct (on_settled (cl_promise st) c2) as [p t3]. simpl in H3'.
  specialize (IH (Cleaning c2 p)).
  destruct (clean_run nodes_of this (Cleaning c2 p) evs) as [st2 t4].
  simpl in *. intros Hin.
  apply in_app_or in Hin as [Hin|Hin].
  - apply in_app_or in Hin as [Hin|Hin].
    + destruct (H1 Hin) as [Hsig Hne]. split; [done|]. exists ev. auto.
    + apply in_app_or in Hin as [Hin|Hin]; [|done].
      destruct (H2 Hin) as (n' & el & Heq & _). discriminate.
  - destruct (IH Hin) as (Hne & ev' & Hev & Hsig). split; [done|].
    exists ev'. auto.
Qed.

(** X19: [clean] deletes only what a scan returned. On any client and for
    any patterns and signals, every batch that [clean] asks a node to
    delete is a batch with keys that some key stream of the run delivered
    as "data", passed on as it came: no key is deleted that was not
    scanned, and no scanned key is changed or prefixed again. *)
Theorem clean_deletes_only_scanned (match_ : option (string + list string))
    (evs : list event) (n : node) (keys : list string) :
  In (NodeDel n keys) (snd (clean_then nodes_of this match_ evs)) →
  keys ≠ [] ∧ ∃ ev, In ev evs ∧ ev_signal ev = Data (Some keys).
Proof.
  unfold clean_then, clean.
  set (els := map _ _).
  pose proof (flush_opens nodes_of this (_sequentialPromises els)
                (NodeDel n keys)) as H1.
  destruct (flush nodes_of this (_sequentialPromises els)) as [c t].
  assert (H2 : ¬ In (NodeDel n keys) (snd (on_settled Pending c))).
  { unfold on_settled. destruct (chain_promise c); simpl; try tauto.
    intros [H|[]]. discriminate. }
  destruct (on_settled Pending c) as [p t'].
  pose proof (clean_run_deletes (Cleaning c p) evs n keys) as H3.
  destruct (clean_run nodes_of this (Cleaning c p) evs) as [st' t''].
  simpl in *. intros [Hin|Hin]; [discriminate|].
  apply in_app_or in Hin as [Hin|Hin]; [|auto].
  apply in_app_or in Hin as [Hin|Hin]; [|done].
  destruct (H1 Hin) as (n' & el & Heq & _). discriminate.
Qed.

End Deletes.

Lemma clean_deletes_only_scanned_witness :
  ["MOL-user:1"] ≠ [] ∧
  ∃ ev, In ev [Event 0 1 (Data (Some ["MOL-user:1"])); Event 0 0 End]
        ∧ ev_signal ev = Data (Some ["MOL-user:1"]).
Proof.
  apply (clean_deletes_only_scanned Sample.pool Sample.cluster
           (Some (inl "user:*"))
           [Event 0 1 (Data (Some ["MOL-user:1"])); Event 0 0 End]
           (Member "10.0.0.2:7000") ["MOL-user:1"]).
  simpl. auto 10.
Defined.
